(** * SimpleRanker: a shallow embedding of [simpleranker.py]

    The executor re-ranks the matches of every selected document: the
    matches of the document and of its immediate chunks are grouped by the
    document they come from, every group is reduced to one promoted match,
    and the promoted matches are sorted by score.

    Python objects are mutable and shared by reference, so documents live in
    a store and are named by their location; [rank] is a state transformer
    over that store.  Score values are Python floats in the source; here they
    are exact rationals, so rounding and NaN are outside the model. *)

From Stdlib Require Import QArith OrderedTypeEx.
From stdpp Require Import gmap strings list sorting.

(** ** Data model *)

(** [docarray.score.NamedScore]: a value and the name of the operation that
    produced it. *)
Record NamedScore : Type := {
  value : Q;
  op_name : option string;
}.

(** A location names one Python object of class [Document]. *)
Abbreviation loc := nat.

(** Modelled from the spec: the [Document] class of docarray, which the
    repository imports.  The empty string stands for an absent [parent_id]
    (Python's [None] and [''] are both false under [or]). [chunks] and
    [matches] hold references. *)
Record Document : Type := {
  id : string;
  parent_id : string;
  granularity : nat;
  chunks : list loc;
  matches : list loc;
  scores : gmap string NamedScore;
  tags : list (string * string);
}.

(** [Document()] *)
Definition empty_document : Document :=
  {| id := ""; parent_id := ""; granularity := 0; chunks := []; matches := [];
     scores := ∅; tags := [] |}.

Global Instance Document_inhabited : Inhabited Document :=
  populate empty_document.

(** The object store. A new object is allocated at the end. *)
Abbreviation store := (list Document).

Definition with_id (v : string) (d : Document) : Document :=
  {| id := v; parent_id := parent_id d; granularity := granularity d;
     chunks := chunks d; matches := matches d; scores := scores d;
     tags := tags d |}.

Definition with_parent_id (v : string) (d : Document) : Document :=
  {| id := id d; parent_id := v; granularity := granularity d;
     chunks := chunks d; matches := matches d; scores := scores d;
     tags := tags d |}.

Definition with_granularity (v : nat) (d : Document) : Document :=
  {| id := id d; parent_id := parent_id d; granularity := v;
     chunks := chunks d; matches := matches d; scores := scores d;
     tags := tags d |}.

Definition with_matches (v : list loc) (d : Document) : Document :=
  {| id := id d; parent_id := parent_id d; granularity := granularity d;
     chunks := chunks d; matches := v; scores := scores d;
     tags := tags d |}.

Definition with_scores (v : gmap string NamedScore) (d : Document) : Document :=
  {| id := id d; parent_id := parent_id d; granularity := granularity d;
     chunks := chunks d; matches := matches d; scores := v;
     tags := tags d |}.

(** ** Exceptions and the state monad of the executor *)

Inductive exn : Type :=
| KeyError (key : string)   (* [m.scores[metric]] on a missing key *)
| IndexError                (* [chunk_match_list[0]] on an empty list *)
| AssertionError.           (* the [assert] of [__init__] *)

Inductive result (A : Type) : Type :=
| Ok (a : A) (s : store)
| Raise (e : exn) (s : store).
Arguments Ok {A} a s.
Arguments Raise {A} e s.

Definition M (A : Type) : Type := store → result A.

Definition ret {A} (a : A) : M A := λ s, Ok a s.

Definition bind {A B} (m : M A) (k : A → M B) : M B :=
  λ s, match m s with
       | Ok a s' => k a s'
       | Raise e s' => Raise e s'
       end.

Definition raise {A} (e : exn) : M A := λ s, Raise e s.

Notation "'let*' x := m 'in' k" := (bind m (λ x, k))
  (at level 10, x binder, m at level 100, k at level 200).
Notation "m >> k" := (bind m (λ _, k))
  (at level 100, k at level 200, right associativity).

(** The store after a computation, whether it returned or raised. *)
Definition final_store {A} (r : result A) : store :=
  match r with Ok _ s => s | Raise _ s => s end.

(** Reading an object, and a view of the whole store for the [lambda]s that
    read attributes while [sorted] or [groupby] run. A Python reference
    always names a live object; here a location outside the store reads as
    the empty document, which no closed store (see [closed]) exercises. *)
Definition get (l : loc) : M Document := λ s, Ok (s !!! l) s.
Definition snapshot : M store := λ s, Ok s s.

(** Attribute assignment [obj.field = v]. *)
Definition update (l : loc) (f : Document → Document) : M unit :=
  λ s, Ok tt (alter f l s).

(** [Document()]: allocate a fresh object. *)
Definition new_document : M loc :=
  λ s, Ok (length s) (s ++ [empty_document]).

(** Modelled from the spec: [Document.copy_from] of docarray, a copy that
    decouples the fields of the destination (id, granularity, parent, scores,
    tags) from the source object; the nested chunks and matches are copied
    as the same references. *)
Definition copy_from (dst src : loc) : M unit :=
  let* d := get src in update dst (λ _, d).

(** [for x in l: body(x)] *)
Fixpoint for_each {A} (l : list A) (body : A → M unit) : M unit :=
  match l with
  | [] => ret tt
  | x :: l' => body x >> for_each l' body
  end.

(** ** Python's [sorted] and [itertools.groupby] *)

(** Stable insertion: [x] stood before every element of [l]. *)
Fixpoint insert_sorted {A} (lt : A → A → bool) (x : A) (l : list A) : list A :=
  match l with
  | [] => [x]
  | y :: l' => if lt y x then y :: insert_sorted lt x l' else x :: y :: l'
  end.

Definition stable_sort {A} (lt : A → A → bool) (l : list A) : list A :=
  foldr (insert_sorted lt) [] l.

(** [sorted(l, key=key)]: the keys are computed once, for every element and
    from left to right, before any comparison; the first key that fails
    aborts the call. The sort is stable and compares keys with [<]. *)
Definition sorted {A K} (lt : K → K → bool) (key : A → option K)
    (l : list A) : option (list A) :=
  ks ← mapM key l;
  Some ((stable_sort (λ a b, lt a.1 b.1) (zip ks l)).*2).

(** [groupby(l, key)]: the maximal runs of consecutive elements with equal
    keys, each with its key. *)
Fixpoint groupby {A} (key : A → string) (l : list A) : list (string * list A) :=
  match l with
  | [] => []
  | x :: l' =>
      match groupby key l' with
      | (k, g) :: gs =>
          if String.eqb (key x) k then (k, x :: g) :: gs
          else (key x, [x]) :: (k, g) :: gs
      | [] => [(key x, [x])]
      end
  end.

(** [a < b] on score values. *)
Definition Qltb (a b : Q) : bool := negb (Qle_bool b a).

(** ** The executor *)

(** Modelled from the spec: the traversal paths of docarray. A path walks
    from the root documents through chunk or match levels (['@r'] is the
    empty path, ['@c'] is [[to_chunks]], ['@cc'] two chunk steps); a selector
    is a comma-separated list of paths. *)
Inductive step : Type := to_chunks | to_matches.
Abbreviation selector := (list (list step)).

Fixpoint traverse_path (s : store) (p : list step) (docs : list loc) : list loc :=
  match p with
  | [] => docs
  | to_chunks :: p' => traverse_path s p' (docs ≫= λ d, chunks (s !!! d))
  | to_matches :: p' => traverse_path s p' (docs ≫= λ d, matches (s !!! d))
  end.

Definition traverse (s : store) (sel : selector) (docs : list loc) : list loc :=
  sel ≫= λ p, traverse_path s p docs.

Record SimpleRanker : Type := {
  metric : string;
  ranking : string;
  traversal_paths : selector;
}.

(** [SimpleRanker.__init__] *)
Definition init (metric ranking : string) (traversal_paths : selector)
    : exn + SimpleRanker :=
  if bool_decide (ranking ∈ ["min"; "max"; "mean_min"; "mean_max"])
  then inr {| metric := metric; ranking := ranking;
              traversal_paths := traversal_paths |}
  else inl AssertionError.

(** [d.parent_id or d.id] *)
Definition source_key (d : Document) : string :=
  if String.eqb (parent_id d) "" then id d else parent_id d.

(** [m.scores[metric].value] *)
Definition score_value (metric : string) (d : Document) : option Q :=
  value <$> scores d !! metric.

(** [sorted(l, key=lambda m: sign * m.scores[metric].value)] over the
    objects of the current store. *)
Definition sorted_by_score (metric : string) (sign : Q → Q) (l : list loc)
    : M (list loc) :=
  let* st := snapshot in
  match sorted Qltb (λ m, sign <$> score_value metric (st !!! m)) l with
  | Some l' => ret l'
  | None => raise (KeyError metric)
  end.

(** [sum(scores) / len(scores)] *)
Definition mean (scores : list Q) : Q :=
  (fold_left Qplus scores 0 / inject_Z (Z.of_nat (length scores)))%Q.

(** The body of [for key, group in groups] (lines 62-88). *)
Definition rank_group (self : SimpleRanker) (doc : loc) (group : list loc)
    : M unit :=
  let* chunk_match_list :=
    (if String.eqb (ranking self) "min" then
       sorted_by_score (metric self) (λ v, v) group
     else if String.eqb (ranking self) "max" then
       sorted_by_score (metric self) Qopp group
     else ret group) in
  match chunk_match_list with
  | [] => raise IndexError
  | rep :: _ =>
      let* match_ := new_document in
      copy_from match_ rep >>
      let* mt := get match_ in
      (if (0 <? granularity mt)%nat then
         let* r := get rep in
         update match_ (with_id (parent_id r)) >>
         update match_ (with_granularity 0) >>
         update match_ (with_parent_id "")
       else ret tt) >>
      (if bool_decide (ranking self ∈ ["mean_min"; "mean_max"]) then
         let* st := snapshot in
         match mapM (λ el, score_value (metric self) (st !!! el))
                 chunk_match_list with
         | Some scores_ =>
             update match_ (λ d, with_scores
               (<[metric self :=
                    {| value := mean scores_;
                       op_name := Some (ranking self) |}]> (scores d)) d)
         | None => raise (KeyError (metric self))
         end
       else ret tt) >>
      update doc (λ d, with_matches (matches d ++ [match_]) d)
  end.

(** Lines 52-56: the candidate matches of [doc]; its own matches are
    cleared on the way. *)
Definition collect_matches (doc : loc) : M (list loc) :=
  let* d := get doc in
  let matches_of_chunks := matches d in
  update doc (with_matches []) >>
  let* d := get doc in
  let* st := snapshot in
  ret (foldl (λ acc chunk, acc ++ matches (st !!! chunk))
         matches_of_chunks (chunks d)).

(** Lines 57-60: sort by source key, then split into runs. *)
Definition group_matches (matches_of_chunks : list loc)
    : M (list (string * list loc)) :=
  let* st := snapshot in
  let key := λ d : loc, source_key (st !!! d) in
  ret (groupby key
         (default [] (sorted String.ltb (λ d, Some (key d)) matches_of_chunks))).

(** Lines 89-96: the final sort of [doc.matches]. *)
Definition sort_matches (self : SimpleRanker) (doc : loc) : M unit :=
  if bool_decide (ranking self ∈ ["min"; "mean_min"]) then
    let* d := get doc in
    let* ms := sorted_by_score (metric self) (λ v, v) (matches d) in
    update doc (with_matches ms)
  else if bool_decide (ranking self ∈ ["max"; "mean_max"]) then
    let* d := get doc in
    let* ms := sorted_by_score (metric self) Qopp (matches d) in
    update doc (with_matches ms)
  else ret tt.

(** The body of [for doc in docs[traversal_paths]] (lines 52-96). *)
Definition rank_doc (self : SimpleRanker) (doc : loc) : M unit :=
  let* matches_of_chunks := collect_matches doc in
  let* groups := group_matches matches_of_chunks in
  for_each groups (λ kg, rank_group self doc kg.2) >>
  sort_matches self doc.

(** [SimpleRanker.rank]. [parameters] is the request's parameter dictionary,
    of which only the key ['traversal_paths'] is read. *)
Definition rank (self : SimpleRanker) (docs : list loc)
    (parameters : gmap string selector) : M unit :=
  let traversal_paths_ :=
    default (traversal_paths self) (parameters !! "traversal_paths") in
  let* st := snapshot in
  for_each (traverse st traversal_paths_ docs) (rank_doc self).

(** * Specification vocabulary

    The notions in which the properties of [rank] are stated and proved. *)

(** ** Orders *)

(** [x] may stand before [y] in a list sorted by [lt]. *)
Definition not_after {A} (lt : A → A → bool) (x y : A) : Prop := lt y x = false.

Definition by_key {A} (key : A → string) (a b : A) : bool :=
  String.ltb (key a) (key b).

(** The key and the order of the sorts by score, read in a store. *)
Definition score_key (mt : string) (sign : Q → Q) (s : store) (m : loc) : Q :=
  sign (default 0%Q (score_value mt (s !!! m))).

Definition by_score (mt : string) (sign : Q → Q) (s : store) (a b : loc) : bool :=
  Qltb (score_key mt sign s a) (score_key mt sign s b).


Definition has_score (mt : string) (s : store) (m : loc) : Prop :=
  is_Some (score_value mt (s !!! m)).


(** The direction of the sort inside a group (lines 63-74) and of the final
    sort (lines 89-96). *)
Definition group_sign (self : SimpleRanker) : option (Q → Q) :=
  if String.eqb (ranking self) "min" then Some (λ v, v)
  else if String.eqb (ranking self) "max" then Some Qopp
  else None.

Definition final_sign (self : SimpleRanker) : option (Q → Q) :=
  if bool_decide (ranking self ∈ ["min"; "mean_min"]) then Some (λ v, v)
  else if bool_decide (ranking self ∈ ["max"; "mean_max"]) then Some Qopp
  else None.

(** ** Targets, candidates and groups *)

(** The documents [rank] works on. *)
Definition targets_of (self : SimpleRanker) (docs : list loc)
    (parameters : gmap string selector) (s : store) : list loc :=
  traverse s (default (traversal_paths self) (parameters !! "traversal_paths"))
    docs.


(** The candidate matches of [doc]: its own matches, then the matches of its
    chunks. *)
Definition pool (s : store) (doc : loc) : list loc :=
  matches (s !!! doc)
  ++ (chunks (s !!! doc) ≫= λ c, if decide (c = doc) then [] else matches (s !!! c)).

(** The source key of the object at [m]. *)
Definition key_in (s : store) (m : loc) : string := source_key (s !!! m).

(** The groups the loop of lines 61-88 runs over. *)
Definition groups_of (s : store) (doc : loc) : list (string * list loc) :=
  groupby (key_in s) (stable_sort (by_key (key_in s)) (pool s doc)).

(** The candidates with source key [k], in the order of the pool. *)
Definition group_of (s : store) (doc : loc) (k : string) : list loc :=
  filter (λ m, key_in s m = k) (pool s doc).

(** ** One turn of the loop over the groups *)

(** The promotion of lines 79-82. *)
Definition promote (d : Document) : Document :=
  if (0 <? granularity d)%nat
  then with_parent_id "" (with_granularity 0 (with_id (parent_id d) d))
  else d.

(** The order of lines 63-74. *)
Definition chosen (self : SimpleRanker) (s : store) (group : list loc)
    : option (list loc) :=
  if String.eqb (ranking self) "min" then
    sorted Qltb (λ m, (λ v, v) <$> score_value (metric self) (s !!! m)) group
  else if String.eqb (ranking self) "max" then
    sorted Qltb (λ m, Qopp <$> score_value (metric self) (s !!! m)) group
  else Some group.

Definition mean_score (self : SimpleRanker) (scs : list Q) : NamedScore :=
  {| value := mean scs; op_name := Some (ranking self) |}.

(** The object that one turn of the loop builds, or the exception it raises
    together with what it had allocated. *)
Definition build (self : SimpleRanker) (s : store) (group : list loc)
    : exn * list Document + Document :=
  match chosen self s group with
  | None => inl (KeyError (metric self), [])
  | Some [] => inl (IndexError, [])
  | Some (rep :: rest) =>
      let d := promote (s !!! rep) in
      if bool_decide (ranking self ∈ ["mean_min"; "mean_max"]) then
        match mapM (λ el, score_value (metric self) ((s ++ [d]) !!! el))
                (rep :: rest) with
        | Some scs =>
            inr (with_scores
                   (<[metric self := mean_score self scs]> (scores d)) d)
        | None => inl (KeyError (metric self), [d])
        end
      else inr d
  end.

(** [doc.matches.append(m)] and its iteration. *)
Definition add_match (m : loc) (d : Document) : Document :=
  with_matches (matches d ++ [m]) d.

Definition add_matches (ms : list loc) (d : Document) : Document :=
  with_matches (matches d ++ ms) d.

(** What one turn of the loop decides from the scores alone: the
    representative, and under a mean policy the score to overwrite. *)
Definition plan (self : SimpleRanker) (s : store) (group : list loc)
    : exn + loc * option NamedScore :=
  match chosen self s group with
  | None => inl (KeyError (metric self))
  | Some [] => inl IndexError
  | Some (rep :: rest) =>
      if bool_decide (ranking self ∈ ["mean_min"; "mean_max"]) then
        match mapM (λ el, score_value (metric self) (s !!! el)) (rep :: rest)
        with
        | Some scs => inr (rep, Some (mean_score self scs))
        | None => inl (KeyError (metric self))
        end
      else inr (rep, None)
  end.

Definition realise (mt : string) (upd : option NamedScore) (d : Document)
    : Document :=
  match upd with
  | Some ns => with_scores (<[mt := ns]> (scores d)) d
  | None => d
  end.

(** [obj] is what the loop builds for [group]: the promoted copy of the
    representative, with the mean written over its score under a mean
    policy. Only when the representative is the target document itself can
    the copy see other matches than the representative had in [s]. *)
Definition built (self : SimpleRanker) (s : store) (doc : loc)
    (group : list loc) (obj : Document) : Prop :=
  ∃ rep upd ms,
    plan self s group = inr (rep, upd) ∧
    obj = realise (metric self) upd (promote (with_matches ms (s !!! rep))) ∧
    (rep ≠ doc → ms = matches (s !!! rep)).

(** ** The store *)

(** Every reference held by a document names a live object, as in any
    Python heap. *)
Definition closed (s : store) : Prop :=
  Forall (λ d, Forall (λ l, l < length s) (chunks d ++ matches d)) s.

Global Instance closed_dec s : Decision (closed s).
Proof. unfold closed. apply _. Defined.

(** [d'] is [d] with, at most, another list of matches. *)
Definition same_but_matches (d d' : Document) : Prop :=
  d' = with_matches (matches d') d.

(** From [s] to [s'] objects were only added, no object changed in anything
    but its matches, and only the [targets] changed at all. *)
Definition frame (targets : list loc) (s s' : store) : Prop :=
  length s ≤ length s' ∧
  ∀ l, l < length s →
    same_but_matches (s !!! l) (s' !!! l) ∧ (l ∉ targets → s' !!! l = s !!! l).

(** No document at granularity 0 has a parent. *)
Definition roots_have_no_parent (s : store) : Prop :=
  Forall (λ d, granularity d = 0 → parent_id d = "") s.

Global Instance roots_have_no_parent_dec s : Decision (roots_have_no_parent s).
Proof. unfold roots_have_no_parent. apply _. Defined.

(** Every document above granularity 0 names its parent: in the whole
    store, and among the listed documents. *)
Definition all_parents_named (s : store) : Prop :=
  Forall (λ d, 0 < granularity d → parent_id d ≠ "") s.

Global Instance all_parents_named_dec s : Decision (all_parents_named s).
Proof. unfold all_parents_named. apply _. Defined.

Definition parents_named (s : store) (l : list loc) : Prop :=
  Forall (λ m, 0 < granularity (s !!! m) → parent_id (s !!! m) ≠ "") l.

(** ** What the matches of a document are after [rank] *)






(** The matches of a document, as values. *)
Definition out_docs (s : store) (t : loc) : list Document :=
  (λ m, s !!! m) <$> matches (s !!! t).



(** ** Promoted copies, ties and batches *)

(** [obj] is the promoted copy of [rep]: it has the tags and the chunks of
    [rep], the id of [rep] or, when [rep] is above granularity 0, of its
    parent, and, but for the metric [mt], the scores of [rep]. *)
Definition promoted_from (mt : string) (rep obj : Document) : Prop :=
  tags obj = tags rep ∧ chunks obj = chunks rep
  ∧ id obj = (if (0 <? granularity rep)%nat then parent_id rep else id rep)
  ∧ ∀ k, k ≠ mt → scores obj !! k = scores rep !! k.




(** * Example stores *)

Definition cosine (v : Q) : gmap string NamedScore :=
  {[ "cosine" := {| value := v; op_name := None |} ]}.

(** A match that came from a chunk of the document with id [p]. *)
Definition chunk_match (i p : string) (v : Q) : Document :=
  {| id := i; parent_id := p; granularity := 1; chunks := []; matches := [];
     scores := cosine v; tags := [("k", "v")] |}.

Definition ranker (policy : string) : SimpleRanker :=
  {| metric := "cosine"; ranking := policy; traversal_paths := [[]] |}.

(** What is read of the matches of a document in the examples: id, parent,
    granularity and score, the score as a reduced fraction. *)
Definition summary (s : store) (doc : loc)
    : list (string * string * nat * option Q) :=
  (λ m, let d := s !!! m in
        (id d, parent_id d, granularity d, Qred <$> score_value "cosine" d))
    <$> matches (s !!! doc).

(** One root document (0) with two chunks (1, 2); each chunk has matches
    into the parents "p1", "p2", "p3". *)
Definition store_A : store :=
  [ {| id := "d"; parent_id := ""; granularity := 0; chunks := [1; 2];
       matches := []; scores := ∅; tags := [] |};
    {| id := "c1"; parent_id := "d"; granularity := 1; chunks := [];
       matches := [3; 4; 5]; scores := ∅; tags := [] |};
    {| id := "c2"; parent_id := "d"; granularity := 1; chunks := [];
       matches := [6; 7; 8]; scores := ∅; tags := [] |};
    chunk_match "m11" "p1" (3 # 10); chunk_match "m12" "p2" (1 # 10);
    chunk_match "m13" "p3" (7 # 10);
    chunk_match "m21" "p1" (2 # 10); chunk_match "m22" "p2" (5 # 10);
    chunk_match "m23" "p3" (9 # 10) ].

Definition store_A_min : store :=
  final_store (rank (ranker "min") [0] ∅ store_A).

Definition store_A_mean : store :=
  final_store (rank (ranker "mean_min") [0] ∅ store_A).

(** A document (0) whose own match (1) is at granularity 0 and has a
    parent. *)
Definition store_P : store :=
  [ {| id := "d"; parent_id := ""; granularity := 0; chunks := [];
       matches := [1]; scores := ∅; tags := [] |};
    {| id := "x"; parent_id := "p"; granularity := 0; chunks := [];
       matches := []; scores := cosine 1; tags := [] |} ].

(** A document (0) with a chunk (1) whose second match (3) has a score
    under another metric only. *)
Definition store_M : store :=
  [ {| id := "d"; parent_id := ""; granularity := 0; chunks := [1];
       matches := []; scores := ∅; tags := [] |};
    {| id := "c1"; parent_id := "d"; granularity := 1; chunks := [];
       matches := [2; 3]; scores := ∅; tags := [] |};
    chunk_match "m1" "p1" (3 # 10);
    {| id := "m2"; parent_id := "p2"; granularity := 1; chunks := [];
       matches := []; scores := {[ "euclidean" :=
                                    {| value := 1; op_name := None |} ]};
       tags := [] |} ].

(** A document (0) with a chunk (1) whose two matches (2, 3) are above
    granularity 0 and name no parent. *)
Definition store_K : store :=
  [ {| id := "d"; parent_id := ""; granularity := 0; chunks := [1];
       matches := []; scores := ∅; tags := [] |};
    {| id := "c1"; parent_id := "d"; granularity := 1; chunks := [];
       matches := [2; 3]; scores := ∅; tags := [] |};
    chunk_match "a" "" 1; chunk_match "b" "" 2 ].


(** A root (0) with a chunk (1) that has a chunk (2); the chunk has a match
    (4) and its chunk a match (3) into the same parent. *)
Definition store_R : store :=
  [ {| id := "r"; parent_id := ""; granularity := 0; chunks := [1];
       matches := []; scores := ∅; tags := [] |};
    {| id := "c"; parent_id := "r"; granularity := 1; chunks := [2];
       matches := [4]; scores := ∅; tags := [] |};
    {| id := "cc"; parent_id := "c"; granularity := 2; chunks := [];
       matches := [3]; scores := ∅; tags := [] |};
    chunk_match "x" "p" 1; chunk_match "y" "p" 5 ].

(** A document (0) with a chunk (1) whose three matches into the parents
    "b", "a" and "c" have the scores 2, 2 and 1. *)
Definition store_T : store :=
  [ {| id := "d"; parent_id := ""; granularity := 0; chunks := [1];
       matches := []; scores := ∅; tags := [] |};
    {| id := "c1"; parent_id := "d"; granularity := 1; chunks := [];
       matches := [2; 3; 4]; scores := ∅; tags := [] |};
    chunk_match "x" "b" 2; chunk_match "y" "a" 2; chunk_match "z" "c" 1 ].

Definition store_T_max : store :=
  final_store (rank (ranker "max") [0] ∅ store_T).

(** The selector ['@r,c']: the roots, then their chunks. *)
Definition roots_and_chunks : SimpleRanker :=
  {| metric := "cosine"; ranking := "min";
     traversal_paths := [[]; [to_chunks]] |}.

(** * Verification *)

(** ** The policies on the example store *)

(** Under [min] the document gets one match for each of the three parents,
    with the least distance found for it, in ascending order. *)
Example rank_min_example :
  summary store_A_min 0
  = [("p2", "", 0, Some (1 # 10)%Q); ("p1", "", 0, Some (1 # 5)%Q);
     ("p3", "", 0, Some (7 # 10)%Q)].
Proof. reflexivity. Qed.

(** Under [max], the greatest distance, in descending order. *)
Example rank_max_example :
  summary (final_store (rank (ranker "max") [0] ∅ store_A)) 0
  = [("p3", "", 0, Some (9 # 10)%Q); ("p2", "", 0, Some (1 # 2)%Q);
     ("p1", "", 0, Some (3 # 10)%Q)].
Proof. reflexivity. Qed.

(** Under [mean_min], the mean of the two distances, in ascending order. *)
Example rank_mean_min_example :
  summary store_A_mean 0
  = [("p1", "", 0, Some (1 # 4)%Q); ("p2", "", 0, Some (3 # 10)%Q);
     ("p3", "", 0, Some (4 # 5)%Q)].
Proof. reflexivity. Qed.

(** With the selector ['@c'] the chunks are the targets: the first chunk
    gets its own three matches, promoted and sorted, and the root none. *)
Example rank_chunks_example :
  let self := {| metric := "cosine"; ranking := "min";
                 traversal_paths := [[to_chunks]] |} in
  let s' := final_store (rank self [0] ∅ store_A) in
  summary s' 1
  = [("p2", "", 0, Some (1 # 10)%Q); ("p1", "", 0, Some (3 # 10)%Q);
     ("p3", "", 0, Some (7 # 10)%Q)]
  ∧ summary s' 0 = [].
Proof. split; reflexivity. Qed.

(** Equal scores: the matches are listed by ascending source key. *)
Example rank_ties_example :
  summary store_T_max 0
  = [("a", "", 0, Some (2 # 1)%Q); ("b", "", 0, Some (2 # 1)%Q);
     ("c", "", 0, Some (1 # 1)%Q)].
Proof. reflexivity. Qed.

(** A policy outside the four is refused at construction. *)
Example init_median_example :
  init "cosine" "median" [[]] = inl AssertionError.
Proof. reflexivity. Qed.

(** ** The stable sort *)

Section stable_sort.
Context {A : Type} (lt : A → A → bool).

Lemma insert_sorted_perm x l : insert_sorted lt x l ≡ₚ x :: l.
Proof.
  induction l as [|y l IH]; simpl; [done|].
  destruct (lt y x); [|done].
  by rewrite IH, Permutation_swap.
Qed.

Lemma stable_sort_perm l : stable_sort lt l ≡ₚ l.
Proof.
  induction l as [|x l IH]; simpl; [done|].
  by rewrite insert_sorted_perm, IH.
Qed.

Lemma stable_sort_length l : length (stable_sort lt l) = length l.
Proof. by rewrite stable_sort_perm. Qed.

Lemma elem_of_stable_sort x l : x ∈ stable_sort lt l ↔ x ∈ l.
Proof. by rewrite stable_sort_perm. Qed.

Lemma insert_sorted_front x l :
  Forall (not_after lt x) l → insert_sorted lt x l = x :: l.
Proof.
  destruct 1 as [|y l Hy _]; simpl; [done|].
  unfold not_after in Hy. by rewrite Hy.
Qed.

(** An element that may stand before all the others stays in front. *)
Lemma stable_sort_front x l :
  Forall (not_after lt x) l → stable_sort lt (x :: l) = x :: stable_sort lt l.
Proof.
  intros H. simpl. apply insert_sorted_front.
  by rewrite stable_sort_perm.
Qed.

Hypothesis lt_asym : ∀ x y, lt x y = true → lt y x = false.
Hypothesis lt_negtrans : ∀ x y z, lt x y = false → lt y z = false → lt x z = false.

Lemma not_after_trans x y z : not_after lt x y → not_after lt y z → not_after lt x z.
Proof. unfold not_after. eauto. Qed.

Lemma insert_sorted_sorted x l :
  StronglySorted (not_after lt) l → StronglySorted (not_after lt) (insert_sorted lt x l).
Proof.
  induction 1 as [|y l Hl IH Hy]; simpl.
  - repeat constructor.
  - destruct (lt y x) eqn:Hyx.
    + constructor; [done|].
      rewrite insert_sorted_perm. constructor; [|done].
      by apply lt_asym.
    + constructor; [by constructor|].
      constructor; [done|].
      eapply Forall_impl; [exact Hy|].
      intros z Hz. by eapply not_after_trans.
Qed.

Lemma stable_sort_sorted l : StronglySorted (not_after lt) (stable_sort lt l).
Proof.
  induction l as [|x l IH]; simpl; [constructor|].
  by apply insert_sorted_sorted.
Qed.

(** Sorting a sorted list changes nothing. *)
Lemma stable_sort_id l : StronglySorted (not_after lt) l → stable_sort lt l = l.
Proof.
  induction 1 as [|x l Hl IH Hx]; [done|].
  by rewrite stable_sort_front, IH.
Qed.

Lemma filter_insert_sorted (P : A → Prop) `{!∀ x, Decision (P x)} x l :
  StronglySorted (not_after lt) l →
  filter P (insert_sorted lt x l)
  = if decide (P x) then insert_sorted lt x (filter P l) else filter P l.
Proof.
  induction 1 as [|y l Hl IH Hy]; simpl.
  - rewrite filter_cons, filter_nil. by destruct (decide (P x)).
  - destruct (lt y x) eqn:Hyx.
    + rewrite !filter_cons, IH.
      destruct (decide (P y)), (decide (P x)); simpl; try done.
      by rewrite Hyx.
    + rewrite !filter_cons.
      destruct (decide (P x)); [|done].
      destruct (decide (P y)); simpl; [by rewrite Hyx|].
      symmetry. apply insert_sorted_front.
      apply list.Forall_forall. intros z [_ Hz]%list_elem_of_filter.
      rewrite list.Forall_forall in Hy.
      eapply not_after_trans; [exact Hyx|]. by apply Hy.
Qed.

(** Stability: the sort keeps the relative order of the elements it does
    not distinguish, so it commutes with every filter. *)
Lemma filter_stable_sort (P : A → Prop) `{!∀ x, Decision (P x)} l :
  filter P (stable_sort lt l) = stable_sort lt (filter P l).
Proof.
  induction l as [|x l IH]; simpl; [done|].
  rewrite filter_insert_sorted by apply stable_sort_sorted.
  rewrite filter_cons. destruct (decide (P x)); simpl; by rewrite IH.
Qed.

End stable_sort.

Lemma insert_sorted_ext {A} (lt1 lt2 : A → A → bool) x l :
  (∀ y, y ∈ l → lt1 y x = lt2 y x) →
  insert_sorted lt1 x l = insert_sorted lt2 x l.
Proof.
  induction l as [|y l IH]; intros H; simpl; [done|].
  rewrite <-(H y) by left.
  rewrite IH; [done|]. intros z Hz. apply H. by right.
Qed.

Lemma stable_sort_ext {A} (lt1 lt2 : A → A → bool) l :
  (∀ x y, x ∈ l → y ∈ l → lt1 x y = lt2 x y) →
  stable_sort lt1 l = stable_sort lt2 l.
Proof.
  induction l as [|x l IH]; intros H; simpl; [done|].
  rewrite <-IH by (intros; apply H; by right).
  apply insert_sorted_ext.
  intros y Hy%elem_of_stable_sort. apply H; [by right|left].
Qed.

Lemma stable_sort_cons {A} (lt : A → A → bool) x l :
  stable_sort lt (x :: l) = insert_sorted lt x (stable_sort lt l).
Proof. done. Qed.

Lemma insert_sorted_fmap {A B} (f : A → B) (lt : B → B → bool) x l :
  f <$> insert_sorted (λ a b, lt (f a) (f b)) x l
  = insert_sorted lt (f x) (f <$> l).
Proof.
  induction l as [|y l IH]; [done|].
  cbn [insert_sorted fmap list_fmap].
  destruct (lt (f y) (f x)); [|done].
  cbn [fmap list_fmap] in *. by rewrite IH.
Qed.

Lemma stable_sort_fmap {A B} (f : A → B) (lt : B → B → bool) l :
  f <$> stable_sort (λ a b, lt (f a) (f b)) l = stable_sort lt (f <$> l).
Proof.
  induction l as [|x l IH]; [done|].
  rewrite fmap_cons, !stable_sort_cons, <-IH.
  apply insert_sorted_fmap.
Qed.

(** ** [sorted] through its keys *)

Lemma zip_fmap_keys {A K} (k : A → K) (l : list A) :
  zip (k <$> l) l = (λ x, (k x, x)) <$> l.
Proof. induction l as [|x l IH]; [done|]. cbn. by rewrite <-IH. Qed.

Lemma sorted_Some {A K} (lt : K → K → bool) (key : A → option K) (k : A → K) l :
  Forall (λ x, key x = Some (k x)) l →
  sorted lt key l = Some (stable_sort (λ a b, lt (k a) (k b)) l).
Proof.
  intros Hk. unfold sorted.
  assert (mapM key l = Some (k <$> l)) as ->.
  { apply mapM_Some. apply Forall2_fmap_r, Forall_Forall2_diag. exact Hk. }
  cbn. f_equal. rewrite zip_fmap_keys.
  rewrite <-(stable_sort_fmap (λ x, (k x, x)) (λ a b, lt a.1 b.1)).
  rewrite <-list_fmap_compose. cbn. apply list_fmap_id.
Qed.

Lemma sorted_None {A K} (lt : K → K → bool) (key : A → option K) l :
  sorted lt key l = None ↔ Exists (λ x, key x = None) l.
Proof.
  unfold sorted. rewrite <-mapM_None.
  destruct (mapM key l); cbn; split; done.
Qed.

Lemma sorted_keys {A K} (lt : K → K → bool) (key : A → option K) l l' :
  sorted lt key l = Some l' → Forall (λ x, is_Some (key x)) l.
Proof.
  intros H. apply list.Forall_forall. intros x Hx.
  destruct (key x) eqn:Hkx; [done|].
  assert (sorted lt key l = None) as Hn; [|congruence].
  apply sorted_None, list.Exists_exists. eauto.
Qed.

(** ** The order on score values and on source keys *)




Lemma ltb_Lt a b : String.ltb a b = true ↔ String.compare a b = Lt.
Proof. unfold String.ltb. destruct (String.compare a b); split; done. Qed.

Lemma ltb_irrefl a : String.ltb a a = false.
Proof.
  apply not_true_iff_false. rewrite ltb_Lt.
  intros H%String_as_OT.cmp_lt. by apply String_as_OT.lt_not_eq in H.
Qed.

Lemma ltb_trans a b c :
  String.ltb a b = true → String.ltb b c = true → String.ltb a c = true.
Proof.
  rewrite !ltb_Lt. intros H1%String_as_OT.cmp_lt H2%String_as_OT.cmp_lt.
  apply String_as_OT.cmp_lt. by eapply String_as_OT.lt_trans.
Qed.

Lemma ltb_asym a b : String.ltb a b = true → String.ltb b a = false.
Proof.
  intros H. apply not_true_iff_false. intros H'.
  pose proof (ltb_trans _ _ _ H H') as Ha. by rewrite ltb_irrefl in Ha.
Qed.

(** Two keys that are not equal are ordered one way or the other. *)
Lemma ltb_trichotomy a b : String.ltb a b = false → a ≠ b → String.ltb b a = true.
Proof.
  intros H Hne. rewrite ltb_Lt, String.compare_antisym.
  apply not_true_iff_false in H. rewrite ltb_Lt in H.
  destruct (String.compare a b) eqn:Hc; try done.
  by apply String.compare_eq_iff in Hc.
Qed.

Lemma ltb_negtrans a b c :
  String.ltb a b = false → String.ltb b c = false → String.ltb a c = false.
Proof.
  intros H1 H2. apply not_true_iff_false. intros H3.
  destruct (decide (a = b)) as [->|Hab]; [congruence|].
  pose proof (ltb_trichotomy _ _ H1 Hab) as Hba.
  pose proof (ltb_trans _ _ _ Hba H3). congruence.
Qed.

(** ** [groupby] *)

Lemma filter_all {A} (P : A → Prop) `{!∀ x, Decision (P x)} l :
  Forall P l → filter P l = l.
Proof.
  induction 1 as [|x l Hx _ IH]; [done|].
  by rewrite filter_cons_True, IH.
Qed.

Lemma filter_none {A} (P : A → Prop) `{!∀ x, Decision (P x)} l :
  Forall (λ x, ¬ P x) l → filter P l = [].
Proof.
  induction 1 as [|x l Hx _ IH]; [done|].
  by rewrite filter_cons_False.
Qed.

Lemma elem_of_concat {A} (x : A) (ls : list (list A)) :
  x ∈ concat ls ↔ ∃ l, x ∈ l ∧ l ∈ ls.
Proof.
  induction ls as [|l ls IH]; cbn.
  - split; [by intros ?%elem_of_nil|by intros (? & _ & ?%elem_of_nil)].
  - rewrite elem_of_app, IH. split.
    + intros [?|(l' & ? & ?)]; [exists l; split; [done|left]|].
      exists l'. split; [done|by right].
    + intros (l' & ? & [->|?]%elem_of_cons); [by left|right; eauto].
Qed.

Section groupby.
Context {A : Type} (key : A → string).

Lemma groupby_concat l : concat (groupby key l).*2 = l.
Proof.
  induction l as [|x l IH]; [done|]. cbn.
  destruct (groupby key l) as [|[k g] gs]; cbn in *; [by rewrite <-IH|].
  destruct (String.eqb (key x) k); cbn; by rewrite <-IH.
Qed.

(** Every group is a non-empty run of elements with the key of the group. *)
Lemma groupby_groups l :
  Forall (λ kg, kg.2 ≠ [] ∧ Forall (λ x, key x = kg.1) kg.2) (groupby key l).
Proof.
  induction l as [|x l IH]; cbn; [constructor|].
  destruct (groupby key l) as [|[k g] gs]; cbn.
  - repeat constructor; done.
  - apply Forall_cons in IH as [[Hne Hg] Hgs]; cbn in *.
    destruct (String.eqb_spec (key x) k) as [Hk|Hk].
    + constructor; [|done]. cbn. split; [done|]. by constructor.
    + constructor; [cbn; split; [done|by repeat constructor]|].
      by constructor.
Qed.

Lemma groupby_head x l :
  ∃ g gs, groupby key (x :: l) = (key x, x :: g) :: gs.
Proof.
  cbn. destruct (groupby key l) as [|[k g] gs]; [by eexists _, _|].
  destruct (String.eqb_spec (key x) k) as [<-|Hk]; by eexists _, _.
Qed.

(** On a list sorted by key, the keys of the groups increase strictly. *)
Lemma groupby_sorted_keys l :
  StronglySorted (not_after (λ a b, String.ltb (key a) (key b))) l →
  StronglySorted (λ a b, String.ltb a b = true) (groupby key l).*1.
Proof.
  intros Hs. apply Sorted_StronglySorted.
  { intros a b c. apply ltb_trans. }
  induction Hs as [|x l Hl IH Hx]; [constructor|].
  cbn. destruct l as [|y l].
  { cbn. repeat constructor. }
  destruct (groupby_head y l) as (g & gs & Hg). rewrite Hg in IH |- *.
  destruct (String.eqb_spec (key x) (key y)) as [Hk|Hk]; cbn in *.
  - apply Sorted_inv in IH as [IH1 IH2]. by constructor.
  - constructor; [done|]. constructor. cbn.
    apply Forall_cons in Hx as [Hx _].
    by apply ltb_trichotomy.
Qed.

Lemma strictly_sorted_NoDup (ks : list string) :
  StronglySorted (λ a b, String.ltb a b = true) ks → NoDup ks.
Proof.
  induction 1 as [|k ks Hs IH Hk]; constructor; [|done].
  intros Hin. rewrite list.Forall_forall in Hk.
  specialize (Hk _ Hin). by rewrite ltb_irrefl in Hk.
Qed.

(** With distinct keys, a group is all the elements with its key. *)
Lemma filter_concat_groups (G : list (string * list A)) k g :
  NoDup G.*1 →
  Forall (λ kg, Forall (λ x, key x = kg.1) kg.2) G →
  (k, g) ∈ G →
  filter (λ x, key x = k) (concat G.*2) = g.
Proof.
  induction G as [|[k0 g0] G IH]; intros Hnd Hall Hin; [by apply elem_of_nil in Hin|].
  cbn in *. apply NoDup_cons in Hnd as [Hk0 Hnd].
  apply Forall_cons in Hall as [Hg0 Hall]. cbn in *.
  rewrite filter_app.
  apply elem_of_cons in Hin as [[= -> ->]|Hin].
  - rewrite (filter_all _ g0) by done.
    (* the remaining groups carry other keys *)
    assert (filter (λ x, key x = k0) (concat G.*2) = []) as ->;
      [|by rewrite app_nil_r].
    apply filter_none, list.Forall_forall.
    intros x (g' & Hx & Hg')%elem_of_concat Hkx.
    apply list_elem_of_fmap in Hg' as ([k' g''] & -> & Hkg).
    rewrite list.Forall_forall in Hall. specialize (Hall _ Hkg). cbn in *.
    rewrite list.Forall_forall in Hall. specialize (Hall _ Hx).
    apply Hk0. apply list_elem_of_fmap. exists (k', g''). split; [|done].
    cbn. congruence.
  - rewrite IH by done.
    assert (filter (λ x, key x = k) g0 = []) as ->; [|done].
    apply filter_none, list.Forall_forall. intros x Hx Hkx.
    rewrite list.Forall_forall in Hg0. specialize (Hg0 _ Hx).
    apply Hk0. apply list_elem_of_fmap. exists (k, g). split; [|done].
    cbn. congruence.
Qed.
End groupby.

(** ** The groups of a sorted pool *)

Section groups.
Context {A : Type} (key : A → string).

Lemma by_key_sorted l :
  StronglySorted (not_after (by_key key)) (stable_sort (by_key key) l).
Proof.
  apply stable_sort_sorted; unfold by_key.
  - intros x y. apply ltb_asym.
  - intros x y z. apply ltb_negtrans.
Qed.

Lemma groups_keys_sorted l :
  StronglySorted (λ a b, String.ltb a b = true)
    (groupby key (stable_sort (by_key key) l)).*1.
Proof. apply groupby_sorted_keys, by_key_sorted. Qed.

(** A group of the sorted pool is the sub-list of the pool, in the order
    of the pool, of the elements with the key of the group. *)
Lemma groups_filter l k g :
  (k, g) ∈ groupby key (stable_sort (by_key key) l) →
  g = filter (λ x, key x = k) l ∧ g ≠ [].
Proof.
  intros Hin.
  pose proof (groupby_groups key (stable_sort (by_key key) l)) as Hg.
  split.
  - rewrite <-(filter_concat_groups key _ k g
      (strictly_sorted_NoDup _ (groups_keys_sorted l))); [| |done].
    + rewrite groupby_concat, filter_stable_sort.
      * apply stable_sort_id.
        assert (Forall (λ x, key x = k) (filter (λ x, key x = k) l)) as Hk.
        { apply list.Forall_forall. by intros x [? _]%list_elem_of_filter. }
        induction Hk as [|x l' Hx Hl' IH]; constructor; [done|].
        eapply Forall_impl; [exact Hl'|]. intros y Hy.
        unfold not_after, by_key. rewrite Hx, Hy. apply ltb_irrefl.
      * intros x y. apply ltb_asym.
      * intros x y z. apply ltb_negtrans.
    + eapply Forall_impl; [exact Hg|]. by intros ? [_ ?].
  - rewrite list.Forall_forall in Hg. by destruct (Hg _ Hin).
Qed.

End groups.

(** ** The store *)

Lemma lookup_total_snoc (s : store) (d : Document) (l : loc) :
  (s ++ [d]) !!! l = if decide (l = length s) then d else s !!! l.
Proof.
  destruct (decide (l = length s)) as [->|Hne].
  - by rewrite list_lookup_total_middle.
  - destruct (decide (l < length s)) as [Hlt|Hge].
    + by apply lookup_total_app_l.
    + rewrite !list_lookup_total_alt, !lookup_ge_None_2; [done|lia|].
      rewrite length_app. cbn. lia.
Qed.

Lemma lookup_total_ge (s : store) (l : loc) :
  length s ≤ l → s !!! l = empty_document.
Proof. intros H. by rewrite list_lookup_total_alt, lookup_ge_None_2. Qed.

Lemma lookup_total_app_old (s x : store) (l : loc) :
  l < length s → (s ++ x) !!! l = s !!! l.
Proof. apply lookup_total_app_l. Qed.

Lemma alter_snoc_new (f : Document → Document) (s : store) (d : Document) :
  alter f (length s) (s ++ [d]) = s ++ [f d].
Proof. rewrite <-(Nat.add_0_r (length s)). by rewrite alter_app_r. Qed.

Lemma alter_app_old (f : Document → Document) (s x : store) (l : loc) :
  l < length s → alter f l (s ++ x) = alter f l s ++ x.
Proof. apply alter_app_l. Qed.

(** ** One group *)

Lemma rank_group_eq self doc group s :
  rank_group self doc group s =
    match build self s group with
    | inr obj => Ok tt (alter (add_match (length s)) doc (s ++ [obj]))
    | inl (e, extra) => Raise e (s ++ extra)
    end.
Proof.
  unfold rank_group, build, chosen, bind at 1.
  assert (∀ sign,
    sorted_by_score (metric self) sign group s =
    match sorted Qltb (λ m, sign <$> score_value (metric self) (s !!! m)) group
    with Some l' => Ok l' s | None => Raise (KeyError (metric self)) s end)
    as Hsort.
  { intros sign. unfold sorted_by_score, bind, snapshot, ret, raise.
    by destruct (sorted _ _ _). }
  assert (∀ cml : option (list loc),
    match
      match cml with
      | Some l' => Ok l' s
      | None => Raise (KeyError (metric self)) s
      end
    with
    | Ok a s' =>
        match a with
        | [] => raise IndexError
        | rep :: _ =>
            let* match_ := new_document in
            copy_from match_ rep >>
            let* mt := get match_ in
            (if (0 <? granularity mt)%nat then
               let* r := get rep in
               update match_ (with_id (parent_id r)) >>
               update match_ (with_granularity 0) >>
               update match_ (with_parent_id "")
             else ret tt) >>
            (if bool_decide (ranking self ∈ ["mean_min"; "mean_max"]) then
               let* st := snapshot in
               match mapM (λ el, score_value (metric self) (st !!! el)) a with
               | Some scores_ =>
                   update match_ (λ d, with_scores
                     (<[metric self :=
                          {| value := mean scores_;
                             op_name := Some (ranking self) |}]> (scores d)) d)
               | None => raise (KeyError (metric self))
               end
             else ret tt) >>
            update doc (λ d, with_matches (matches d ++ [match_]) d)
        end s'
    | Raise e s' => Raise e s'
    end =
    match
      match cml with
      | None => inl (KeyError (metric self), [])
      | Some [] => inl (IndexError, [])
      | Some (rep :: rest) =>
          let d := promote (s !!! rep) in
          if bool_decide (ranking self ∈ ["mean_min"; "mean_max"]) then
            match mapM (λ el, score_value (metric self) ((s ++ [d]) !!! el))
                    (rep :: rest) with
            | Some scs =>
                inr (with_scores
                       (<[metric self := mean_score self scs]> (scores d)) d)
            | None => inl (KeyError (metric self), [d])
            end
          else inr d
      end
    with
    | inr obj => Ok tt (alter (add_match (length s)) doc (s ++ [obj]))
    | inl (e, extra) => Raise e (s ++ extra)
    end) as Hbody.
  { intros [[|rep rest]|];
      [by rewrite app_nil_r| |by rewrite app_nil_r].
    cbv beta iota zeta.
    unfold bind, new_document, copy_from, get, update, snapshot, ret, raise,
      bind.
    rewrite alter_snoc_new.
    assert ((s ++ [empty_document]) !!! rep = s !!! rep) as ->.
    { rewrite lookup_total_snoc. case_decide; [|done].
      subst. by rewrite lookup_total_ge. }
    rewrite (lookup_total_snoc s (s !!! rep) (length s)).
    rewrite decide_True by done.
    assert ((s ++ [s !!! rep]) !!! rep = s !!! rep) as Hr.
    { rewrite lookup_total_snoc. by case_decide. }
    unfold promote.
    destruct (0 <? granularity (s !!! rep))%nat eqn:Hg.
    - rewrite Hr, !alter_snoc_new.
      destruct (bool_decide _); [|done].
      destruct (mapM _ _); [|done]. by rewrite alter_snoc_new.
    - destruct (bool_decide _); [|done].
      destruct (mapM _ _); [|done]. by rewrite alter_snoc_new. }
  destruct (String.eqb (ranking self) "min").
  { rewrite Hsort. apply Hbody. }
  destruct (String.eqb (ranking self) "max").
  { rewrite Hsort. apply Hbody. }
  apply (Hbody (Some group)).
Qed.

(** ** What [rank] leaves alone *)

Lemma with_matches_same d : with_matches (matches d) d = d.
Proof. by destruct d. Qed.

Lemma same_but_matches_refl d : same_but_matches d d.
Proof. unfold same_but_matches. by rewrite with_matches_same. Qed.

Lemma same_but_matches_trans d1 d2 d3 :
  same_but_matches d1 d2 → same_but_matches d2 d3 → same_but_matches d1 d3.
Proof. unfold same_but_matches. intros -> ->. done. Qed.

Lemma same_but_matches_with ms d : same_but_matches d (with_matches ms d).
Proof. done. Qed.

Lemma same_but_matches_fields d d' :
  same_but_matches d d' →
  id d' = id d ∧ parent_id d' = parent_id d ∧ granularity d' = granularity d
  ∧ chunks d' = chunks d ∧ scores d' = scores d ∧ tags d' = tags d.
Proof. intros ->. done. Qed.

Lemma frame_refl T s : frame T s s.
Proof. split; [done|]. intros l _. split; [apply same_but_matches_refl|done]. Qed.

Lemma frame_trans T s1 s2 s3 : frame T s1 s2 → frame T s2 s3 → frame T s1 s3.
Proof.
  intros [Hl1 H1] [Hl2 H2]. split; [lia|]. intros l Hl.
  destruct (H1 l Hl) as [Ha Hb]. destruct (H2 l ltac:(lia)) as [Hc Hd]. split.
  - by eapply same_but_matches_trans.
  - intros Hn. by rewrite Hd, Hb.
Qed.

Lemma frame_app T (s x : store) : frame T s (s ++ x).
Proof.
  split; [rewrite length_app; lia|]. intros l Hl.
  rewrite lookup_total_app_old by done.
  split; [apply same_but_matches_refl|done].
Qed.

Lemma frame_alter T (s : store) l f :
  l ∈ T → (∀ d, same_but_matches d (f d)) → frame T s (alter f l s).
Proof.
  intros Hin Hf. split; [by rewrite length_alter|]. intros j Hj.
  rewrite list_lookup_total_alter. case_decide as Hd.
  - destruct Hd as [-> _]. done.
  - split; [apply same_but_matches_refl|done].
Qed.

Lemma frame_score T s s' mt l :
  frame T s s' → l < length s →
  score_value mt (s' !!! l) = score_value mt (s !!! l).
Proof.
  intros [_ H] Hl. destruct (H l Hl) as [Hs _].
  apply same_but_matches_fields in Hs as (_ & _ & _ & _ & Hsc & _).
  unfold score_value. by rewrite Hsc.
Qed.


(** ** The plan of one group *)

Lemma sorted_ext_in {A K} (lt : K → K → bool) (key1 key2 : A → option K) l :
  Forall (λ x, key1 x = key2 x) l → sorted lt key1 l = sorted lt key2 l.
Proof. intros H. unfold sorted. by rewrite (Forall_mapM_ext _ _ _ H). Qed.

Lemma chosen_frame self T s s' group :
  frame T s s' → Forall (λ m, m < length s) group →
  chosen self s' group = chosen self s group.
Proof.
  intros Hf Hv. unfold chosen.
  assert (∀ sign : Q → Q,
    sorted Qltb (λ m, sign <$> score_value (metric self) (s' !!! m)) group
    = sorted Qltb (λ m, sign <$> score_value (metric self) (s !!! m)) group)
    as Hs.
  { intros sign. apply sorted_ext_in. eapply Forall_impl; [exact Hv|].
    intros m Hm. cbn beta. by rewrite (frame_score T s s'). }
  by rewrite !Hs.
Qed.

Lemma sorted_perm {A K} (lt : K → K → bool) (key : A → option K) l l' :
  sorted lt key l = Some l' → l' ≡ₚ l.
Proof.
  unfold sorted. destruct (mapM key l) as [ks|] eqn:Hks; [|done].
  cbn. intros [= <-].
  rewrite stable_sort_perm. apply length_mapM in Hks.
  by rewrite snd_zip by lia.
Qed.

Lemma chosen_perm self s group l : chosen self s group = Some l → l ≡ₚ group.
Proof.
  unfold chosen. repeat case_match; try apply sorted_perm. by intros [= ->].
Qed.

Lemma build_plan self T s s' group :
  frame T s s' → Forall (λ m, m < length s) group →
  match plan self s group with
  | inr (rep, upd) =>
      build self s' group = inr (realise (metric self) upd (promote (s' !!! rep)))
  | inl e => ∃ extra, build self s' group = inl (e, extra)
  end.
Proof.
  intros Hf Hv. unfold plan, build. rewrite (chosen_frame self T s s') by done.
  destruct (chosen self s group) as [[|rep rest]|] eqn:Hc; [by eexists..| |by eexists].
  cbv zeta. destruct (bool_decide _); [|done].
  assert (Forall (λ m, m < length s) (rep :: rest)) as Hv'.
  { by rewrite (chosen_perm _ _ _ _ Hc). }
  assert (mapM (λ el, score_value (metric self)
                 ((s' ++ [promote (s' !!! rep)]) !!! el)) (rep :: rest)
          = mapM (λ el, score_value (metric self) (s !!! el)) (rep :: rest))
    as ->.
  { apply Forall_mapM_ext. eapply Forall_impl; [exact Hv'|].
    intros m Hm. cbn beta in Hm |- *.
    rewrite lookup_total_app_old by (destruct Hf; lia).
    by apply (frame_score T s s'). }
  destruct (mapM _ _); [done|by eexists].
Qed.

Lemma plan_rep self s group rep upd :
  plan self s group = inr (rep, upd) →
  ∃ rest, chosen self s group = Some (rep :: rest).
Proof.
  unfold plan. destruct (chosen self s group) as [[|r rest]|]; try done.
  destruct (bool_decide _); [destruct (mapM _ _); [|done]|];
    intros [= -> <-]; by eexists.
Qed.

Lemma plan_rep_in self s group rep upd :
  plan self s group = inr (rep, upd) → rep ∈ group.
Proof.
  intros [rest Hc]%plan_rep. rewrite <-(chosen_perm _ _ _ _ Hc). left.
Qed.

(** ** The loop over the groups *)

Lemma loop_groups self doc s groups : ∀ s_i,
  doc < length s → frame [doc] s s_i →
  Forall (λ kg : string * list loc, Forall (λ m, m < length s) kg.2) groups →
  match for_each groups (λ kg, rank_group self doc kg.2) s_i with
  | Ok _ s' =>
      ∃ objs,
        s' = alter (add_matches (seq (length s_i) (length groups))) doc s_i
             ++ objs
        ∧ Forall2 (built self s doc) groups.*2 objs
  | Raise e s' =>
      frame [doc] s s' ∧ Exists (λ kg, plan self s kg.2 = inl e) groups
  end.
Proof.
  induction groups as [|kg groups IH]; intros s_i Hdoc Hf Hv.
  - cbn. exists []. split; [|constructor].
    rewrite app_nil_r. symmetry. apply list_alter_id.
    intros d. unfold add_matches. rewrite app_nil_r. apply with_matches_same.
  - apply Forall_cons in Hv as [Hg Hv].
    cbn [for_each]. unfold bind at 1. rewrite rank_group_eq.
    pose proof (build_plan self [doc] s s_i kg.2 Hf Hg) as Hb.
    destruct (plan self s kg.2) as [e|[rep upd]] eqn:Hp.
    { destruct Hb as [extra ->]. split; [|by left].
      eapply frame_trans; [exact Hf|apply frame_app]. }
    rewrite Hb.
    assert (doc < length s_i) as Hdoc' by (destruct Hf; lia).
    rewrite alter_app_old by done.
    set (s_j := alter (add_match (length s_i)) doc s_i
                ++ [realise (metric self) upd (promote (s_i !!! rep))]).
    assert (frame [doc] s s_j) as Hf'.
    { eapply frame_trans; [exact Hf|].
      eapply frame_trans; [|apply frame_app].
      apply frame_alter; [left|]. intros d. apply same_but_matches_with. }
    specialize (IH s_j Hdoc Hf' Hv).
    destruct (for_each groups _ s_j) as [[] s'|e s'].
    + destruct IH as (objs & -> & Hobjs).
      exists (realise (metric self) upd (promote (s_i !!! rep)) :: objs).
      split.
      * unfold s_j. rewrite length_app, length_alter. cbn [length].
        rewrite alter_app_old by (by rewrite length_alter).
        rewrite list_alter_alter_eq, <-app_assoc. cbn [app]. f_equal.
        apply list_alter_ext; [|done]. intros d _. unfold compose, add_matches,
          add_match. cbn. rewrite <-app_assoc. cbn.
        by replace (length s_i + 1) with (S (length s_i)) by lia.
      * cbn. constructor; [|done].
        pose proof (plan_rep_in _ _ _ _ _ Hp) as Hin.
        rewrite list.Forall_forall in Hg. specialize (Hg _ Hin).
        destruct Hf as [_ Hfr]. destruct (Hfr rep Hg) as [Hsame Heq].
        exists rep, upd, (matches (s_i !!! rep)). split; [done|].
        split; [by rewrite <-Hsame|].
        intros Hne. rewrite Heq; [done|]. by intros ->%list_elem_of_singleton.
    + destruct IH as [Hfr Hex]. split; [done|by right].
Qed.

(** ** One target document *)

Lemma clear_lookup (s : store) doc l :
  alter (with_matches []) doc s !!! l
  = if decide (l = doc) then with_matches [] (s !!! l) else s !!! l.
Proof.
  rewrite list_lookup_total_alter. repeat case_decide; try done.
  - by subst.
  - exfalso. intuition congruence.
  - subst. destruct (decide (doc < length s)); [by exfalso; auto|].
    by rewrite lookup_total_ge by lia.
Qed.

Lemma foldl_app_bind {A B} (f : A → list B) (l : list A) (acc : list B) :
  foldl (λ acc x, acc ++ f x) acc l = acc ++ (l ≫= f).
Proof.
  revert acc. induction l as [|x l IH]; intros acc; cbn.
  - by rewrite app_nil_r.
  - by rewrite IH, <-app_assoc.
Qed.

Lemma collect_matches_eq doc s :
  collect_matches doc s = Ok (pool s doc) (alter (with_matches []) doc s).
Proof.
  unfold collect_matches, bind, get, update, snapshot, ret, pool.
  f_equal. rewrite foldl_app_bind. rewrite clear_lookup, decide_True by done.
  cbn [chunks with_matches]. f_equal.
  induction (chunks (s !!! doc)) as [|c l IH]; [done|].
  cbn. rewrite IH. f_equal. rewrite clear_lookup.
  by case_decide.
Qed.

Lemma groupby_ext {A} (key1 key2 : A → string) l :
  (∀ x, key1 x = key2 x) → groupby key1 l = groupby key2 l.
Proof.
  intros H. induction l as [|x l IH]; [done|]. cbn. by rewrite IH, H.
Qed.

Lemma key_in_clear s doc m : key_in (alter (with_matches []) doc s) m = key_in s m.
Proof. unfold key_in. rewrite clear_lookup. by case_decide. Qed.

Lemma group_matches_eq doc s P :
  group_matches P (alter (with_matches []) doc s)
  = Ok (groupby (key_in s) (stable_sort (by_key (key_in s)) P))
       (alter (with_matches []) doc s).
Proof.
  unfold group_matches, bind, snapshot, ret. f_equal.
  rewrite (sorted_Some _ _ (key_in (alter (with_matches []) doc s)))
    by (by apply Forall_true).
  cbn [default].
  rewrite (groupby_ext _ (key_in s)) by apply key_in_clear. f_equal.
  apply stable_sort_ext. intros x y _ _. unfold by_key.
  by rewrite !key_in_clear.
Qed.

Lemma sorted_by_score_eq mt sign l s :
  sorted_by_score mt sign l s
  = if decide (Forall (has_score mt s) l)
    then Ok (stable_sort (by_score mt sign s) l) s
    else Raise (KeyError mt) s.
Proof.
  unfold sorted_by_score, bind, snapshot. case_decide as Hall.
  - rewrite (sorted_Some _ _ (score_key mt sign s)); [done|].
    eapply Forall_impl; [exact Hall|]. intros m [v Hv]. cbn beta.
    unfold score_key. by rewrite Hv.
  - destruct (sorted _ _ _) as [l'|] eqn:Hs; [|done].
    exfalso. apply Hall. apply sorted_keys in Hs.
    eapply Forall_impl; [exact Hs|]. intros m Hm. cbn beta in Hm.
    unfold has_score. by apply fmap_is_Some in Hm.
Qed.

Lemma sort_matches_eq self doc s :
  sort_matches self doc s
  = match final_sign self with
    | Some sign =>
        if decide (Forall (has_score (metric self) s) (matches (s !!! doc)))
        then Ok tt (alter (with_matches
                      (stable_sort (by_score (metric self) sign s)
                         (matches (s !!! doc)))) doc s)
        else Raise (KeyError (metric self)) s
    | None => Ok tt s
    end.
Proof.
  unfold sort_matches, final_sign.
  destruct (bool_decide (ranking self ∈ ["min"; "mean_min"])).
  { unfold bind at 1, get. unfold bind. rewrite sorted_by_score_eq.
    by case_decide. }
  destruct (bool_decide (ranking self ∈ ["max"; "mean_max"])); [|done].
  unfold bind at 1, get. unfold bind. rewrite sorted_by_score_eq.
  by case_decide.
Qed.

Lemma promote_scores d : scores (promote d) = scores d.
Proof. unfold promote. by destruct (0 <? granularity d)%nat. Qed.

Lemma elem_of_2 (x a b : string) : x ∈ [a; b] ↔ x = a ∨ x = b.
Proof. rewrite !elem_of_cons, elem_of_nil. tauto. Qed.

Lemma elem_of_4 (x a b c d : string) :
  x ∈ [a; b; c; d] ↔ x = a ∨ x = b ∨ x = c ∨ x = d.
Proof. rewrite !elem_of_cons, elem_of_nil. tauto. Qed.

Lemma final_sign_policy self sign :
  final_sign self = Some sign →
  ranking self ∈ ["min"; "max"; "mean_min"; "mean_max"].
Proof.
  unfold final_sign. rewrite elem_of_4.
  repeat case_bool_decide; [| |done]; intros _;
    match goal with H : _ ∈ _ |- _ => apply elem_of_2 in H end; tauto.
Qed.

(** Under each of the four policies the object built for a group carries
    the metric. *)
Lemma built_has_score self s doc group obj :
  built self s doc group obj → is_Some (final_sign self) →
  is_Some (score_value (metric self) obj).
Proof.
  intros (rep & upd & ms & Hp & -> & _) [sign Hsign].
  unfold score_value. apply fmap_is_Some.
  destruct upd as [ns|]; cbn.
  { rewrite lookup_insert_eq. by eexists. }
  rewrite promote_scores. cbn.
  pose proof Hp as [rest Hc]%plan_rep.
  assert (¬ ranking self ∈ ["mean_min"; "mean_max"]) as Hnm.
  { intros Hm. unfold plan in Hp. rewrite Hc, bool_decide_true in Hp by done.
    by destruct (mapM _ _). }
  apply final_sign_policy in Hsign.
  assert (ranking self = "min" ∨ ranking self = "max") as Hpol.
  { rewrite elem_of_4 in Hsign. rewrite elem_of_2 in Hnm. tauto. }
  unfold chosen in Hc.
  assert (∃ sign', sorted Qltb
            (λ m, sign' <$> score_value (metric self) (s !!! m)) group
          = Some (rep :: rest)) as [sign' Hs].
  { destruct Hpol as [Hr|Hr]; rewrite Hr in Hc; cbn in Hc; by eexists. }
  pose proof (sorted_keys _ _ _ _ Hs) as Hk.
  rewrite list.Forall_forall in Hk.
  assert (rep ∈ group) as Hin.
  { rewrite <-(sorted_perm _ _ _ _ Hs). left. }
  specialize (Hk _ Hin). cbn beta in Hk.
  apply fmap_is_Some in Hk. unfold score_value in Hk.
  by apply fmap_is_Some in Hk.
Qed.

Lemma groups_of_valid s doc :
  Forall (λ m, m < length s) (pool s doc) →
  Forall (λ kg : string * list loc, Forall (λ m, m < length s) kg.2)
    (groups_of s doc).
Proof.
  intros Hv. apply list.Forall_forall. intros [k g] Hin. cbn.
  apply groups_filter in Hin as [-> _].
  apply list.Forall_forall. intros m [_ Hm]%list_elem_of_filter.
  rewrite list.Forall_forall in Hv. by apply Hv.
Qed.

Lemma lookup_total_new (s objs : store) (j : nat) :
  (s ++ objs) !!! (length s + j) = objs !!! j.
Proof. rewrite lookup_total_app_r by lia. f_equal. lia. Qed.

(** [rank_doc] on a live document whose candidates are live: the objects
    built for the groups are appended to the store in the order of the
    groups, and the document receives their locations, sorted. *)
Lemma rank_doc_eq self doc s :
  doc < length s → Forall (λ m, m < length s) (pool s doc) →
  match rank_doc self doc s with
  | Ok _ s' =>
      ∃ objs ms,
        s' = alter (with_matches ms) doc s ++ objs
        ∧ Forall2 (built self s doc) (groups_of s doc).*2 objs
        ∧ ms = match final_sign self with
               | Some sign =>
                   stable_sort (by_score (metric self) sign s')
                     (seq (length s) (length objs))
               | None => seq (length s) (length objs)
               end
  | Raise e s' =>
      frame [doc] s s'
      ∧ Exists (λ kg, plan self s kg.2 = inl e) (groups_of s doc)
  end.
Proof.
  intros Hdoc Hv. unfold rank_doc.
  unfold bind at 1. rewrite collect_matches_eq.
  unfold bind at 1. rewrite group_matches_eq. fold (groups_of s doc).
  unfold bind at 1.
  assert (frame [doc] s (alter (with_matches []) doc s)) as Hf.
  { apply frame_alter; [left|]. intros d. apply same_but_matches_with. }
  pose proof (loop_groups self doc s (groups_of s doc) _ Hdoc Hf
                (groups_of_valid s doc Hv)) as Hloop.
  destruct (for_each (groups_of s doc) _ _) as [[] s_b|e s_b]; [|done].
  destruct Hloop as (objs & -> & Hobjs).
  pose proof (Forall2_length _ _ _ Hobjs) as Hlen.
  rewrite length_fmap in Hlen. rewrite Hlen, length_alter.
  rewrite list_alter_alter_eq.
  rewrite (list_alter_ext _ (with_matches (seq (length s) (length objs)))
             s s doc) by done.
  set (s_b := alter (with_matches (seq (length s) (length objs))) doc s ++ objs).
  assert (s_b !!! doc = with_matches (seq (length s) (length objs)) (s !!! doc))
    as Hd.
  { unfold s_b. rewrite lookup_total_app_old by (by rewrite length_alter).
    by rewrite list_lookup_total_alter_eq. }
  assert (∀ ms, alter (with_matches ms) doc s_b
                = alter (with_matches ms) doc s ++ objs) as Halter.
  { intros ms. unfold s_b.
    rewrite alter_app_old by (by rewrite length_alter).
    by rewrite list_alter_alter_eq. }
  rewrite sort_matches_eq, Hd. cbn [matches with_matches].
  destruct (final_sign self) as [sign|] eqn:Hsign.
  - rewrite decide_True.
    + rewrite Halter.
      exists objs, (stable_sort (by_score (metric self) sign s_b)
                      (seq (length s) (length objs))).
      split; [done|]. split; [done|].
      apply stable_sort_ext. intros x y Hx Hy.
      assert (∀ m, m ∈ seq (length s) (length objs) →
                (alter (with_matches
                   (stable_sort (by_score (metric self) sign s_b)
                      (seq (length s) (length objs)))) doc s ++ objs) !!! m
                = s_b !!! m) as Hsame.
      { intros m [Hm1 Hm2]%elem_of_seq. unfold s_b.
        by rewrite !lookup_total_app_r, !length_alter
          by (rewrite length_alter; lia). }
      unfold by_score, score_key. by rewrite !Hsame.
    + apply Forall_seq. intros j [Hj1 Hj2]. unfold has_score, s_b.
      replace j with (length (alter (with_matches (seq (length s) (length objs)))
                                doc s) + (j - length s))
        by (rewrite length_alter; lia).
      rewrite lookup_total_new.
      destruct (lookup_lt_is_Some_2 objs (j - length s)) as [obj Hobj]; [lia|].
      rewrite (list_lookup_total_correct _ _ _ Hobj).
      destruct (Forall2_lookup_r _ _ _ _ _ Hobjs Hobj) as (g & _ & Hb).
      eapply built_has_score; [exact Hb|by eexists].
  - exists objs, (seq (length s) (length objs)). split; [|done].
    unfold s_b. done.
Qed.

(** ** The frame of [rank], on any store *)

Lemma frame_alter_any T (s s' : store) l f :
  l ∈ T → (∀ d, same_but_matches d (f d)) → frame T s s' →
  frame T s (alter f l s').
Proof.
  intros Hin Hf [Hlen H]. split; [by rewrite length_alter|]. intros j Hj.
  destruct (H j Hj) as [Ha Hb].
  rewrite list_lookup_total_alter. case_decide as Hd; [|done].
  destruct Hd as [-> _]. split; [|done].
  eapply same_but_matches_trans; [exact Ha|apply Hf].
Qed.

Lemma frame_snoc T (s s' x : store) : frame T s s' → frame T s (s' ++ x).
Proof. intros H. eapply frame_trans; [exact H|apply frame_app]. Qed.

Lemma rank_group_frame self doc group T s s_i :
  doc ∈ T → frame T s s_i →
  frame T s (final_store (rank_group self doc group s_i)).
Proof.
  intros Hin Hf. rewrite rank_group_eq.
  destruct (build self s_i group) as [[e extra]|obj]; cbn.
  - by apply frame_snoc.
  - apply frame_alter_any; [done|by intros d|by apply frame_snoc].
Qed.

Lemma for_each_frame {A} (body : A → M unit) T s (l : list A) : ∀ s_i,
  (∀ x s_j, x ∈ l → frame T s s_j → frame T s (final_store (body x s_j))) →
  frame T s s_i →
  frame T s (final_store (for_each l body s_i)).
Proof.
  induction l as [|x l IH]; intros s_i Hbody Hf; [done|].
  cbn [for_each]. unfold bind.
  pose proof (Hbody x s_i ltac:(left) Hf) as Hx.
  destruct (body x s_i) as [[] s_j|e s_j]; [|done].
  apply IH; [|done]. intros y s_k Hy. apply Hbody. by right.
Qed.

Lemma sort_matches_frame self doc T s s_i :
  doc ∈ T → frame T s s_i →
  frame T s (final_store (sort_matches self doc s_i)).
Proof.
  intros Hin Hf. rewrite sort_matches_eq.
  destruct (final_sign self); [|done]. case_decide; [|done].
  apply frame_alter_any; [done|by intros d|done].
Qed.

Lemma rank_doc_frame self doc T s s_i :
  doc ∈ T → frame T s s_i →
  frame T s (final_store (rank_doc self doc s_i)).
Proof.
  intros Hin Hf. unfold rank_doc.
  unfold bind at 1. rewrite collect_matches_eq.
  unfold bind at 1. unfold group_matches at 1, bind at 1, snapshot, ret.
  unfold bind.
  assert (frame T s (alter (with_matches []) doc s_i)) as Hc.
  { apply frame_alter_any; [done|by intros d|done]. }
  match goal with |- context [for_each ?gs ?body ?st] =>
    pose proof (for_each_frame body T s gs st) as Hloop;
    destruct (for_each gs body st) as [[] s_b|e s_b]
  end.
  - apply sort_matches_frame; [done|]. apply Hloop; [|done].
    intros kg s_j _. by apply rank_group_frame.
  - apply Hloop; [|done]. intros kg s_j _. by apply rank_group_frame.
Qed.


Lemma rank_eq self docs parameters s :
  rank self docs parameters s
  = for_each (targets_of self docs parameters s) (rank_doc self) s.
Proof. done. Qed.

(** ** Closed stores *)

Lemma closed_lookup s l :
  closed s → Forall (λ m, m < length s) (chunks (s !!! l) ++ matches (s !!! l)).
Proof.
  intros Hc. destruct (decide (l < length s)) as [Hl|Hl].
  - apply lookup_lt_is_Some_2 in Hl as [d Hd].
    rewrite (list_lookup_total_correct _ _ _ Hd).
    unfold closed in Hc. rewrite list.Forall_forall in Hc.
    apply Hc. by eapply list_elem_of_lookup_2.
  - rewrite lookup_total_ge by lia. constructor.
Qed.

Lemma closed_mono (s : store) n d :
  Forall (λ l, l < length s) (chunks d ++ matches d) → length s ≤ n →
  Forall (λ l, l < n) (chunks d ++ matches d).
Proof.
  intros Hd Hn. eapply Forall_impl; [exact Hd|]. intros l Hl. simpl in *. lia.
Qed.

Lemma closed_snoc s d :
  closed s → Forall (λ l, l < S (length s)) (chunks d ++ matches d) →
  closed (s ++ [d]).
Proof.
  intros Hc Hd. unfold closed. rewrite length_app. cbn.
  replace (length s + 1) with (S (length s)) by lia.
  apply Forall_app. split; [|by repeat constructor].
  eapply Forall_impl; [exact Hc|]. intros d' Hd'. cbn beta in *.
  eapply Forall_impl; [exact Hd'|]. intros l Hl. simpl in *. lia.
Qed.

Lemma closed_alter_matches s doc ms :
  closed s → Forall (λ l, l < length s) ms →
  closed (alter (with_matches ms) doc s).
Proof.
  intros Hc Hms. unfold closed. rewrite length_alter.
  apply list.Forall_forall. intros d Hd.
  apply list_elem_of_lookup in Hd as [i Hi].
  rewrite list_lookup_alter in Hi. case_decide as Heq.
  - subst i. destruct (s !! doc) as [d0|] eqn:Hd0; [|done].
    cbn in Hi. injection Hi as <-. cbn [chunks matches with_matches].
    apply Forall_app. split; [|done].
    pose proof (closed_lookup s doc Hc) as Hl.
    rewrite (list_lookup_total_correct _ _ _ Hd0) in Hl.
    by apply Forall_app in Hl as [? _].
  - unfold closed in Hc. rewrite list.Forall_forall in Hc.
    apply Hc. by eapply list_elem_of_lookup_2.
Qed.

Lemma pool_valid s doc :
  closed s → Forall (λ m, m < length s) (pool s doc).
Proof.
  intros Hc. unfold pool. apply Forall_app. split.
  - pose proof (closed_lookup s doc Hc) as H. by apply Forall_app in H as [_ ?].
  - apply list.Forall_forall. intros m (c & Hm & _)%list_elem_of_bind.
    case_decide; [by apply elem_of_nil in Hm|].
    pose proof (closed_lookup s c Hc) as Hcl. apply Forall_app in Hcl as [_ Hcl].
    rewrite list.Forall_forall in Hcl. by apply Hcl.
Qed.

Lemma promote_refs d :
  chunks (promote d) = chunks d ∧ matches (promote d) = matches d.
Proof. unfold promote. by destruct (0 <? granularity d)%nat. Qed.

Lemma build_refs self s group obj :
  build self s group = inr obj →
  ∃ rep, chunks obj = chunks (s !!! rep) ∧ matches obj = matches (s !!! rep).
Proof.
  unfold build. destruct (chosen self s group) as [[|rep rest]|]; try done.
  cbv zeta. destruct (bool_decide _).
  - destruct (mapM _ _); [|done]. intros [= <-]. exists rep. cbn.
    apply promote_refs.
  - intros [= <-]. exists rep. apply promote_refs.
Qed.

Lemma build_extra_refs self s group e extra :
  build self s group = inl (e, extra) →
  extra = [] ∨ ∃ rep, extra = [promote (s !!! rep)].
Proof.
  unfold build. destruct (chosen self s group) as [[|rep rest]|];
    try (intros [= <- <-]; by left).
  cbv zeta. destruct (bool_decide _); [|done].
  destruct (mapM _ _); [done|]. intros [= <- <-]. right. by eexists.
Qed.

Lemma closed_add_match s doc m :
  closed s → m < length s → closed (alter (add_match m) doc s).
Proof.
  intros Hc Hm. unfold closed. rewrite length_alter.
  apply list.Forall_forall. intros d Hd.
  apply list_elem_of_lookup in Hd as [i Hi].
  rewrite list_lookup_alter in Hi.
  assert (∀ d0, s !! i = Some d0 →
            Forall (λ l, l < length s) (chunks d0 ++ matches d0)) as Hold.
  { intros d0 Hd0. unfold closed in Hc. rewrite list.Forall_forall in Hc.
    apply Hc. by eapply list_elem_of_lookup_2. }
  case_decide as Heq; [|by apply Hold].
  subst i. destruct (s !! doc) as [d0|] eqn:Hd0; [|done].
  cbn in Hi. injection Hi as <-. specialize (Hold _ eq_refl).
  apply Forall_app in Hold as [H1 H2]. cbn.
  apply Forall_app. split; [done|]. apply Forall_app. split; [done|].
  by repeat constructor.
Qed.

Lemma closed_rank_group self doc group s :
  closed s → closed (final_store (rank_group self doc group s)).
Proof.
  intros Hc. rewrite rank_group_eq.
  destruct (build self s group) as [[e extra]|obj] eqn:Hb; cbn.
  - apply build_extra_refs in Hb as [->|[rep ->]]; [by rewrite app_nil_r|].
    apply closed_snoc; [done|].
    destruct (promote_refs (s !!! rep)) as [-> ->].
    eapply closed_mono; [by apply closed_lookup|lia].
  - apply build_refs in Hb as (rep & Hch & Hm).
    apply closed_add_match; [|rewrite length_app; cbn; lia].
    apply closed_snoc; [done|]. rewrite Hch, Hm.
    eapply closed_mono; [by apply closed_lookup|lia].
Qed.

Lemma for_each_inv {A} (Inv : store → Prop) (body : A → M unit) (l : list A) :
  (∀ x s, Inv s → Inv (final_store (body x s))) →
  ∀ s, Inv s → Inv (final_store (for_each l body s)).
Proof.
  intros Hbody. induction l as [|x l IH]; intros s Hs; [done|].
  cbn [for_each]. unfold bind. specialize (Hbody x s Hs).
  destruct (body x s) as [[] s_j|e s_j]; [by apply IH|done].
Qed.

Lemma closed_rank_doc self doc s :
  closed s → closed (final_store (rank_doc self doc s)).
Proof.
  intros Hc. unfold rank_doc.
  unfold bind at 1. rewrite collect_matches_eq.
  unfold bind at 1. unfold group_matches at 1, bind at 1, snapshot, ret.
  unfold bind.
  assert (closed (alter (with_matches []) doc s)) as Hc'.
  { by apply closed_alter_matches. }
  match goal with |- context [for_each ?gs ?body ?st] =>
    pose proof (for_each_inv closed body gs
                  (λ x s, closed_rank_group self doc x.2 s) st Hc') as Hloop;
    destruct (for_each gs body st) as [[] s_b|e s_b]
  end; [|done].
  cbn in Hloop. rewrite sort_matches_eq.
  destruct (final_sign self); [|done]. case_decide; [|done]. cbn.
  apply closed_alter_matches; [done|].
  pose proof (closed_lookup s_b doc Hloop) as H'.
  apply Forall_app in H' as [_ H']. apply list.Forall_forall.
  intros m Hm%elem_of_stable_sort. rewrite list.Forall_forall in H'. by apply H'.
Qed.

Lemma traverse_path_valid s p docs :
  closed s → Forall (λ t, t < length s) docs →
  Forall (λ t, t < length s) (traverse_path s p docs).
Proof.
  intros Hc. revert docs. induction p as [|[] p IH]; intros docs Hd; [done|..];
    cbn; apply IH, list.Forall_forall; intros t (d & Ht & _)%list_elem_of_bind;
    pose proof (closed_lookup s d Hc) as H; apply Forall_app in H as [H1 H2];
    rewrite list.Forall_forall in H1, H2; auto.
Qed.

Lemma traverse_valid s sel docs :
  closed s → Forall (λ t, t < length s) docs →
  Forall (λ t, t < length s) (traverse s sel docs).
Proof.
  intros Hc Hd. apply list.Forall_forall.
  intros t (p & Ht & _)%list_elem_of_bind.
  pose proof (traverse_path_valid s p docs Hc Hd) as H.
  rewrite list.Forall_forall in H. by apply H.
Qed.

(** ** From one document to the whole call *)

Lemma rank_doc_frame_self self doc s :
  frame [doc] s (final_store (rank_doc self doc s)).
Proof. apply rank_doc_frame; [left|apply frame_refl]. Qed.

Lemma rank_doc_Ok_frame self doc s s' :
  rank_doc self doc s = Ok tt s' → frame [doc] s s'.
Proof. intros H. pose proof (rank_doc_frame_self self doc s) as Hf. by rewrite H in Hf. Qed.

Lemma rank_doc_Ok_closed self doc s s' :
  closed s → rank_doc self doc s = Ok tt s' → closed s'.
Proof. intros Hc H. pose proof (closed_rank_doc self doc s Hc) as Hf. by rewrite H in Hf. Qed.

Lemma frame_other s s' t t' :
  frame [t'] s s' → t ≠ t' → t < length s → s' !!! t = s !!! t.
Proof.
  intros [_ H] Hne Hlt. destruct (H t Hlt) as [_ Heq]. apply Heq.
  by intros ->%list_elem_of_singleton.
Qed.

Section whole_call.
Context (self : SimpleRanker) (U : loc → Prop).
Context (Inv : store → Prop) (Φ : store → loc → Prop).

(** [U] holds of the documents that are ranked, [Inv] is kept by every
    step, and [Φ] is made true of a document when it is ranked and kept
    while another one is. *)
Hypothesis Inv_step : ∀ t s_a s_b,
  Inv s_a → U t → t < length s_a → rank_doc self t s_a = Ok tt s_b → Inv s_b.
Hypothesis Φ_made : ∀ t s_a s_b,
  Inv s_a → U t → t < length s_a → rank_doc self t s_a = Ok tt s_b → Φ s_b t.
Hypothesis Φ_kept : ∀ t t' s_a s_b,
  Inv s_a → U t → U t' → t ≠ t' → t < length s_a → t' < length s_a →
  Φ s_a t → rank_doc self t' s_a = Ok tt s_b → Φ s_b t.

Lemma rank_targets_kept t targets : ∀ s s',
  Inv s → U t → Forall (λ t, U t ∧ t < length s) targets → t < length s →
  t ∉ targets → Φ s t →
  for_each targets (rank_doc self) s = Ok tt s' → Φ s' t.
Proof.
  induction targets as [|t' targets IH]; intros s s' HI HU Hv Ht Hn HΦ Hrun.
  { by injection Hrun as <-. }
  cbn [for_each] in Hrun. unfold bind in Hrun.
  destruct (rank_doc self t' s) as [[] s1|e s1] eqn:Hstep; [|done].
  apply Forall_cons in Hv as [[HU' Hv'] Hv].
  apply not_elem_of_cons in Hn as [Hne Hn].
  pose proof (rank_doc_Ok_frame _ _ _ _ Hstep) as [Hlen _].
  apply (IH s1 s'); eauto.
  - eapply Forall_impl; [exact Hv|]. intros x [? Hx]. split; [done|lia].
  - lia.
Qed.

Lemma rank_targets_post targets : ∀ s s',
  Inv s → Forall (λ t, U t ∧ t < length s) targets →
  for_each targets (rank_doc self) s = Ok tt s' →
  Inv s' ∧ ∀ t, t ∈ targets → Φ s' t.
Proof.
  induction targets as [|t' targets IH]; intros s s' HI Hv Hrun.
  { injection Hrun as <-. split; [done|]. by intros t ?%elem_of_nil. }
  cbn [for_each] in Hrun. unfold bind in Hrun.
  destruct (rank_doc self t' s) as [[] s1|e s1] eqn:Hstep; [|done].
  apply Forall_cons in Hv as [[HU' Hv'] Hv].
  pose proof (rank_doc_Ok_frame _ _ _ _ Hstep) as [Hlen _].
  assert (Forall (λ t, U t ∧ t < length s1) targets) as Hv1.
  { eapply Forall_impl; [exact Hv|]. intros x [? Hx]. split; [done|lia]. }
  destruct (IH s1 s' (Inv_step _ _ _ HI HU' Hv' Hstep) Hv1 Hrun) as [HI' HΦ].
  split; [done|]. intros t Ht.
  destruct (decide (t ∈ targets)) as [Hin|Hnin]; [by apply HΦ|].
  apply elem_of_cons in Ht as [->|?]; [|done].
  eapply (rank_targets_kept t' targets s1 s'); eauto. lia.
Qed.
End whole_call.

(** ** C1: the matches of every target end up sorted *)




(** The objects [rank_doc] appends. *)
Lemma rank_doc_new doc (s objs : store) ms j obj :
  objs !! j = Some obj →
  (alter (with_matches ms) doc s ++ objs) !!! (length s + j) = obj.
Proof.
  intros Hj. rewrite <-(length_alter (with_matches ms) s doc).
  rewrite lookup_total_new. by apply list_lookup_total_correct.
Qed.

Lemma rank_doc_out doc (s : store) ms (objs : store) :
  doc < length s →
  matches ((alter (with_matches ms) doc s ++ objs) !!! doc) = ms.
Proof.
  intros Hdoc. rewrite lookup_total_app_old by (by rewrite length_alter).
  by rewrite list_lookup_total_alter_eq.
Qed.






(** ** C9: the frame of [rank] *)


(** ** C6: the ranking policy is checked when the executor is built *)

Lemma for_each_Raise {A} (body : A → M unit) (l : list A) e : ∀ s s',
  for_each l body s = Raise e s' →
  ∃ x s_j, x ∈ l ∧ body x s_j = Raise e s'.
Proof.
  induction l as [|x l IH]; intros s s' H; [done|].
  cbn [for_each] in H. unfold bind in H.
  destruct (body x s) as [[] s_j|e' s_j] eqn:Hx.
  - destruct (IH _ _ H) as (y & s_k & Hy & Hk). exists y, s_k.
    split; [by right|done].
  - injection H as -> ->. exists x, s. split; [left|done].
Qed.

Lemma rank_group_raises self doc group s e s' :
  group ≠ [] → rank_group self doc group s = Raise e s' →
  e = KeyError (metric self).
Proof.
  intros Hne. rewrite rank_group_eq. unfold build.
  destruct (chosen self s group) as [[|rep rest]|] eqn:Hc.
  - apply chosen_perm in Hc. by apply Permutation_nil in Hc.
  - cbv zeta. destruct (bool_decide _); [|done].
    destruct (mapM _ _); [done|]. by intros [= <- _].
  - by intros [= <- _].
Qed.

Lemma rank_doc_raises self doc s e s' :
  rank_doc self doc s = Raise e s' → e = KeyError (metric self).
Proof.
  unfold rank_doc. unfold bind at 1. rewrite collect_matches_eq.
  unfold bind at 1. rewrite group_matches_eq. unfold bind.
  destruct (for_each _ _ _) as [[] s_b|e' s_b] eqn:Hloop.
  - rewrite sort_matches_eq. destruct (final_sign self); [|done].
    case_decide; [done|]. by intros [= <- _].
  - intros [= -> ->].
    apply for_each_Raise in Hloop as ([k g] & s_j & Hin & Hg).
    eapply rank_group_raises; [|exact Hg].
    pose proof (groupby_groups (key_in s)
                  (stable_sort (by_key (key_in s)) (pool s doc))) as Hall.
    rewrite list.Forall_forall in Hall. by destruct (Hall _ Hin).
Qed.

Lemma rank_raises self docs parameters s e s' :
  rank self docs parameters s = Raise e s' → e = KeyError (metric self).
Proof.
  rewrite rank_eq. intros (t & s_j & _ & Ht)%for_each_Raise.
  by eapply rank_doc_raises.
Qed.

(** C6. Building the executor with a ranking outside min, max, mean_min and
    mean_max fails, with the failed assertion of [__init__]; with one of the
    four it succeeds; and no call of [rank] ever raises that error. *)
Theorem init_checks_ranking mt rk tp :
  (rk ∈ ["min"; "max"; "mean_min"; "mean_max"] →
     init mt rk tp
     = inr {| metric := mt; ranking := rk; traversal_paths := tp |})
  ∧ (rk ∉ ["min"; "max"; "mean_min"; "mean_max"] →
       init mt rk tp = inl AssertionError)
  ∧ (∀ self docs parameters s e s',
       rank self docs parameters s = Raise e s' → e ≠ AssertionError).
Proof.
  unfold init. split; [|split].
  - intros H. by rewrite bool_decide_true.
  - intros H. by rewrite bool_decide_false.
  - intros self docs parameters s e s' H.
    by rewrite (rank_raises _ _ _ _ _ _ H).
Qed.

Lemma init_checks_ranking_witness :
  init "cosine" "median" [[]] = inl AssertionError
  ∧ init "cosine" "mean_max" [[]]
    = inr {| metric := "cosine"; ranking := "mean_max";
             traversal_paths := [[]] |}.
Proof.
  split.
  - apply (init_checks_ranking "cosine" "median" [[]]).
    by apply (bool_decide_unpack _).
  - apply (init_checks_ranking "cosine" "mean_max" [[]]).
    by apply (bool_decide_unpack _).
Defined.

(** ** C8: the candidates of a target *)

(** C8. The candidates collected for a document are its own matches and the
    matches of its immediate chunks, and nothing else; the document's own
    list of matches is emptied on the way. *)
Theorem candidates_collected doc s :
  ∃ P, collect_matches doc s = Ok P (alter (with_matches []) doc s)
    ∧ (∀ m, m ∈ P ↔
         m ∈ matches (s !!! doc)
         ∨ ∃ c, c ∈ chunks (s !!! doc) ∧ m ∈ matches (s !!! c))
    ∧ (doc ∉ chunks (s !!! doc) →
         P = matches (s !!! doc)
             ++ (chunks (s !!! doc) ≫= λ c, matches (s !!! c))).
Proof.
  exists (pool s doc). split; [apply collect_matches_eq|]. split.
  - intros m. unfold pool. rewrite elem_of_app, list_elem_of_bind. split.
    + intros [?|(c & Hm & Hc)]; [by left|].
      case_decide; [by apply elem_of_nil in Hm|]. right. eauto.
    + intros [?|(c & Hc & Hm)]; [by left|].
      destruct (decide (c = doc)) as [->|Hne]; [by left|].
      right. exists c. by rewrite decide_False.
  - intros Hn. unfold pool. f_equal.
    induction (chunks (s !!! doc)) as [|c l IH]; [done|].
    apply not_elem_of_cons in Hn as [Hne Hn]. cbn.
    rewrite decide_False by done. by rewrite IH.
Qed.

Lemma candidates_collected_witness :
  ∃ P, collect_matches 0 store_A = Ok P (alter (with_matches []) 0 store_A)
       ∧ P = [3; 4; 5; 6; 7; 8].
Proof.
  destruct (candidates_collected 0 store_A) as (P & Hc & _ & HP).
  exists P. split; [exact Hc|]. rewrite HP; [done|].
  by apply (bool_decide_unpack _).
Defined.


(** ** C7: promoted matches *)

Lemma promote_granularity d : granularity (promote d) = 0.
Proof.
  unfold promote. destruct (0 <? granularity d)%nat eqn:Hg; [done|].
  apply Nat.ltb_ge in Hg. lia.
Qed.

Lemma promote_parent_id d :
  parent_id (promote d) = ""
  ∨ (granularity d = 0 ∧ parent_id (promote d) = parent_id d).
Proof.
  unfold promote. destruct (0 <? granularity d)%nat eqn:Hg; [by left|].
  apply Nat.ltb_ge in Hg. right. split; [lia|done].
Qed.

Lemma realise_fields mt upd d :
  id (realise mt upd d) = id d ∧ parent_id (realise mt upd d) = parent_id d
  ∧ granularity (realise mt upd d) = granularity d
  ∧ tags (realise mt upd d) = tags d.
Proof. by destruct upd. Qed.

(** A property of the objects built for the groups holds of all the
    matches the document receives. *)
Lemma rank_doc_out_made (Q : Document → Prop) self doc s s' :
  closed s → doc < length s → rank_doc self doc s = Ok tt s' →
  (∀ g obj, built self s doc g obj → Q obj) →
  Forall (λ m, Q (s' !!! m)) (matches (s' !!! doc)).
Proof.
  intros Hc Hdoc Hrun HQ.
  pose proof (rank_doc_eq self doc s Hdoc (pool_valid s doc Hc)) as H.
  rewrite Hrun in H. destruct H as (objs & ms & -> & Hobjs & Hms).
  rewrite rank_doc_out by done.
  assert (∀ m, m ∈ seq (length s) (length objs) →
            Q ((alter (with_matches ms) doc s ++ objs) !!! m)) as Hseq.
  { intros m [Hm1 Hm2]%elem_of_seq.
    destruct (lookup_lt_is_Some_2 objs (m - length s)) as [obj Hobj]; [lia|].
    replace m with (length s + (m - length s)) by lia.
    rewrite (rank_doc_new doc s objs ms _ obj Hobj).
    destruct (Forall2_lookup_r _ _ _ _ _ Hobjs Hobj) as (g & _ & Hb). eauto. }
  apply list.Forall_forall. intros m Hm. apply Hseq.
  destruct (final_sign self); rewrite Hms in Hm;
    [by apply elem_of_stable_sort in Hm|done].
Qed.

(** A property of documents that does not look at their matches is kept,
    on the matches of a document, while another document is ranked. *)
Lemma rank_doc_out_kept (Q : Document → Prop) self t t' s s' :
  (∀ d d', same_but_matches d d' → Q d → Q d') →
  closed s → t ≠ t' → t < length s →
  Forall (λ m, Q (s !!! m)) (matches (s !!! t)) →
  rank_doc self t' s = Ok tt s' →
  Forall (λ m, Q (s' !!! m)) (matches (s' !!! t)).
Proof.
  intros HQ Hc Hne Ht Hall Hrun.
  pose proof (rank_doc_Ok_frame _ _ _ _ Hrun) as Hf.
  rewrite (frame_other s s' t t') by done.
  rewrite list.Forall_forall in Hall |- *. intros m Hm.
  pose proof (closed_lookup s t Hc) as Hv. apply Forall_app in Hv as [_ Hv].
  rewrite list.Forall_forall in Hv. destruct Hf as [_ Hf].
  destruct (Hf m (Hv m Hm)) as [Hsame _]. eapply HQ; [exact Hsame|].
  by apply Hall.
Qed.

Lemma roots_have_no_parent_lookup s l :
  roots_have_no_parent s → granularity (s !!! l) = 0 → parent_id (s !!! l) = "".
Proof.
  intros H. destruct (decide (l < length s)) as [Hl|Hl].
  - apply lookup_lt_is_Some_2 in Hl as [d Hd].
    rewrite (list_lookup_total_correct _ _ _ Hd).
    unfold roots_have_no_parent in H. rewrite list.Forall_forall in H.
    apply H. by eapply list_elem_of_lookup_2.
  - by rewrite lookup_total_ge by lia.
Qed.

Lemma built_granularity self s doc g obj :
  built self s doc g obj → granularity obj = 0.
Proof.
  intros (rep & upd & ms & _ & -> & _).
  destruct (realise_fields (metric self) upd
              (promote (with_matches ms (s !!! rep)))) as (_ & _ & -> & _).
  apply promote_granularity.
Qed.

Lemma built_parent_id self s doc g obj :
  roots_have_no_parent s → built self s doc g obj → parent_id obj = "".
Proof.
  intros Hr (rep & upd & ms & _ & -> & _).
  destruct (realise_fields (metric self) upd
              (promote (with_matches ms (s !!! rep)))) as (_ & -> & _).
  destruct (promote_parent_id (with_matches ms (s !!! rep)))
    as [?|[Hg ->]]; [done|].
  cbn in *. by apply roots_have_no_parent_lookup.
Qed.

Lemma roots_have_no_parent_step self doc s s' :
  closed s → doc < length s → roots_have_no_parent s →
  rank_doc self doc s = Ok tt s' → roots_have_no_parent s'.
Proof.
  intros Hc Hdoc Hr Hrun.
  pose proof (rank_doc_eq self doc s Hdoc (pool_valid s doc Hc)) as H.
  rewrite Hrun in H. destruct H as (objs & ms & -> & Hobjs & _).
  unfold roots_have_no_parent. apply Forall_app. split.
  - apply list.Forall_forall. intros d Hd.
    apply list_elem_of_lookup in Hd as [i Hi].
    rewrite list_lookup_alter in Hi.
    assert (∀ d0, s !! i = Some d0 → granularity d0 = 0 → parent_id d0 = "")
      as Hold.
    { intros d0 Hd0. unfold roots_have_no_parent in Hr.
      rewrite list.Forall_forall in Hr. apply Hr.
      by eapply list_elem_of_lookup_2. }
    case_decide; [|by apply Hold]. subst i.
    destruct (s !! doc) as [d0|]; [|done]. injection Hi as <-. cbn.
    by apply Hold.
  - apply list.Forall_forall. intros obj Hobj.
    apply list_elem_of_lookup in Hobj as [j Hj].
    destruct (Forall2_lookup_r _ _ _ _ _ Hobjs Hj) as (g & _ & Hb).
    intros _. by eapply built_parent_id.
Qed.

(** C7, as the code has it. After [rank] has returned, every match of every
    target document has granularity 0; it has no parent as well, provided
    no document at granularity 0 had one when [rank] was called (a
    representative at granularity 0 is copied as it is, parent included). *)
Theorem rank_promotes self docs parameters s s' t :
  closed s → Forall (λ d, d < length s) docs →
  rank self docs parameters s = Ok tt s' →
  t ∈ targets_of self docs parameters s →
  Forall (λ m, granularity (s' !!! m) = 0
               ∧ (roots_have_no_parent s → parent_id (s' !!! m) = ""))
    (matches (s' !!! t)).
Proof.
  intros Hc Hd Hrun Ht. rewrite rank_eq in Hrun.
  assert (Forall (λ t, True ∧ t < length s)
            (targets_of self docs parameters s)) as Hv.
  { eapply Forall_impl; [by apply traverse_valid|]. by intros. }
  assert (Forall (λ m, granularity (s' !!! m) = 0) (matches (s' !!! t))) as Hg.
  { eapply (rank_targets_post self (λ _, True) closed
      (λ s t, Forall (λ m, granularity (s !!! m) = 0) (matches (s !!! t))));
      [| | |exact Hc|exact Hv|exact Hrun|exact Ht].
    - intros. by eapply rank_doc_Ok_closed.
    - intros t0 s_a s_b Ha _ Ht0 Hstep.
      apply (rank_doc_out_made (λ d, granularity d = 0)
               self t0 s_a s_b Ha Ht0 Hstep).
      intros g obj. apply built_granularity.
    - intros t0 t' s_a s_b Ha _ _ Hne Ht0 _ Hall Hstep.
      eapply (rank_doc_out_kept (λ d, granularity d = 0)); eauto.
      intros d d' (_ & _ & -> & _)%same_but_matches_fields. done. }
  assert (roots_have_no_parent s →
          Forall (λ m, parent_id (s' !!! m) = "") (matches (s' !!! t))) as Hp.
  { intros Hr.
    eapply (rank_targets_post self (λ _, True)
      (λ s, closed s ∧ roots_have_no_parent s)
      (λ s t, Forall (λ m, parent_id (s !!! m) = "") (matches (s !!! t))));
      [| | |exact (conj Hc Hr)|exact Hv|exact Hrun|exact Ht].
    - intros t0 s_a s_b [Ha Hb] _ Ht0 Hstep. split.
      + by eapply rank_doc_Ok_closed.
      + by eapply roots_have_no_parent_step.
    - intros t0 s_a s_b [Ha Hb] _ Ht0 Hstep.
      apply (rank_doc_out_made (λ d, parent_id d = "")
               self t0 s_a s_b Ha Ht0 Hstep).
      intros g obj. by apply built_parent_id.
    - intros t0 t' s_a s_b [Ha Hb] _ _ Hne Ht0 _ Hall Hstep.
      eapply (rank_doc_out_kept (λ d, parent_id d = "")); eauto.
      intros d d' (_ & -> & _)%same_but_matches_fields. done. }
  rewrite list.Forall_forall in Hg |- *. intros m Hm. split; [by apply Hg|].
  intros Hr. specialize (Hp Hr). rewrite list.Forall_forall in Hp. by apply Hp.
Qed.

Lemma rank_promotes_witness :
  Forall (λ m, granularity (store_A_min !!! m) = 0
               ∧ parent_id (store_A_min !!! m) = "")
    (matches (store_A_min !!! 0)).
Proof.
  pose proof (rank_promotes (ranker "min") [0] ∅ store_A store_A_min 0) as H.
  eapply Forall_impl.
  - apply H.
    + by apply (bool_decide_unpack _).
    + by apply (bool_decide_unpack _).
    + by vm_compute.
    + by apply (bool_decide_unpack _).
  - intros m [Hg Hp]. split; [done|]. apply Hp.
    by apply (bool_decide_unpack _).
Defined.

(** The match is copied with its parent: C7 as stated fails. *)
Lemma promoted_match_keeps_parent :
  ∃ s', rank (ranker "min") [0] ∅ store_P = Ok tt s'
        ∧ ¬ Forall (λ m, granularity (s' !!! m) = 0
                         ∧ parent_id (s' !!! m) = "")
              (matches (s' !!! 0)).
Proof.
  eexists. split; [by vm_compute|].
  intros H. apply Forall_inv in H as [_ H]. vm_compute in H. discriminate.
Qed.

(** ** C5: a candidate without the metric *)




Lemma pool_elem s doc m :
  m ∈ pool s doc ↔
  m ∈ matches (s !!! doc)
  ∨ ∃ c, c ∈ chunks (s !!! doc) ∧ c ≠ doc ∧ m ∈ matches (s !!! c).
Proof.
  unfold pool. rewrite elem_of_app, list_elem_of_bind. split.
  - intros [?|(c & Hm & Hc)]; [by left|].
    case_decide; [by apply elem_of_nil in Hm|]. right. eauto.
  - intros [?|(c & Hc & Hne & Hm)]; [by left|].
    right. exists c. by rewrite decide_False.
Qed.




(** ** The groups and the matches built from them *)

Lemma groups_of_group s doc k g :
  (k, g) ∈ groups_of s doc → g = group_of s doc k ∧ g ≠ [].
Proof. apply groups_filter. Qed.

(** The matches of the document after [rank_doc], listed group by group. *)
Lemma rank_doc_groups self doc s s' :
  closed s → doc < length s → rank_doc self doc s = Ok tt s' →
  ∃ out, out ≡ₚ matches (s' !!! doc)
    ∧ Forall2 (λ kg m, built self s doc (group_of s doc kg.1) (s' !!! m))
        (groups_of s doc) out.
Proof.
  intros Hc Hdoc Hrun.
  pose proof (rank_doc_eq self doc s Hdoc (pool_valid s doc Hc)) as H.
  rewrite Hrun in H. destruct H as (objs & ms & -> & Hobjs & Hms).
  exists (seq (length s) (length objs)). split.
  - rewrite rank_doc_out by done. rewrite Hms.
    destruct (final_sign self); [by rewrite stable_sort_perm|done].
  - rewrite Forall2_fmap_l in Hobjs.
    apply Forall2_same_length_lookup. split.
    { rewrite length_seq. by eapply Forall2_length. }
    intros i [k g] m Hg Hm. apply lookup_seq in Hm as [-> Hi].
    destruct (lookup_lt_is_Some_2 objs i Hi) as [obj Hobj].
    rewrite (rank_doc_new doc s objs ms i obj Hobj).
    pose proof (Forall2_lookup_lr _ _ _ _ _ _ Hobjs Hg Hobj) as Hb.
    cbn in Hb |- *.
    apply list_elem_of_lookup_2, groups_of_group in Hg as [<- _]. exact Hb.
Qed.

Lemma chosen_eq self s g :
  chosen self s g
  = match group_sign self with
    | Some sign =>
        if decide (Forall (has_score (metric self) s) g)
        then Some (stable_sort (by_score (metric self) sign s) g)
        else None
    | None => Some g
    end.
Proof.
  assert (∀ sign : Q → Q,
    sorted Qltb (λ m, sign <$> score_value (metric self) (s !!! m)) g
    = if decide (Forall (has_score (metric self) s) g)
      then Some (stable_sort (by_score (metric self) sign s) g)
      else None) as Hs.
  { intros sign. pose proof (sorted_by_score_eq (metric self) sign g s) as H.
    unfold sorted_by_score, bind, snapshot, ret, raise in H.
    destruct (sorted _ _ _); case_decide; congruence. }
  unfold chosen, group_sign.
  destruct (String.eqb (ranking self) "min"); [apply Hs|].
  destruct (String.eqb (ranking self) "max"); [apply Hs|done].
Qed.


(** ** C3: minimum and maximum *)





(** ** C2: the mean *)






(** ** C4: the groups partition the candidates *)

Lemma realise_source_key mt upd d : source_key (realise mt upd d) = source_key d.
Proof. by destruct upd. Qed.

Lemma promote_source_key d :
  (0 < granularity d → parent_id d ≠ "") →
  source_key (promote d) = source_key d.
Proof.
  intros H. unfold promote.
  destruct (0 <? granularity d)%nat eqn:Hg; [|done].
  apply Nat.ltb_lt in Hg. specialize (H Hg).
  unfold source_key. cbn.
  destruct (String.eqb_spec (parent_id d) ""); done.
Qed.

Lemma built_source_key self s doc k obj :
  parents_named s (group_of s doc k) →
  built self s doc (group_of s doc k) obj → source_key obj = k.
Proof.
  intros Hn (rep & upd & ms & Hp & -> & _).
  apply plan_rep_in in Hp. unfold parents_named in Hn.
  rewrite list.Forall_forall in Hn. specialize (Hn _ Hp).
  apply list_elem_of_filter in Hp as [Hk _].
  rewrite realise_source_key, promote_source_key by done.
  exact Hk.
Qed.

Lemma parents_named_group s doc k :
  parents_named s (pool s doc) → parents_named s (group_of s doc k).
Proof.
  unfold parents_named. rewrite !list.Forall_forall.
  intros H m [_ Hm]%list_elem_of_filter. by apply H.
Qed.

(** C4, as the code has it. The groups formed for a document partition its
    candidates by source key: every group is the non-empty list of all the
    candidates with its key, no two groups share a key, and together they
    are the pool. The document receives as many matches as there are groups;
    their own source keys are those of the groups, hence pairwise distinct,
    provided every candidate above granularity 0 names its parent. *)
Theorem rank_doc_partition self doc s s' :
  closed s → doc < length s → rank_doc self doc s = Ok tt s' →
  ∃ G,
    group_matches (pool s doc) (alter (with_matches []) doc s)
    = Ok G (alter (with_matches []) doc s)
    ∧ concat G.*2 ≡ₚ pool s doc
    ∧ NoDup G.*1
    ∧ (∀ k g c, (k, g) ∈ G → g ≠ [] ∧ (c ∈ g ↔ c ∈ pool s doc ∧ key_in s c = k))
    ∧ length (matches (s' !!! doc)) = length G
    ∧ (parents_named s (pool s doc) →
         key_in s' <$> matches (s' !!! doc) ≡ₚ G.*1
         ∧ NoDup (key_in s' <$> matches (s' !!! doc))).
Proof.
  intros Hc Hdoc Hrun. exists (groups_of s doc).
  split; [apply group_matches_eq|].
  split; [unfold groups_of; by rewrite groupby_concat, stable_sort_perm|].
  split; [apply strictly_sorted_NoDup, groups_keys_sorted|].
  split.
  { intros k g c Hin. apply groups_of_group in Hin as [-> Hne].
    split; [done|]. unfold group_of. rewrite list_elem_of_filter. tauto. }
  destruct (rank_doc_groups self doc s s' Hc Hdoc Hrun) as (out & Hperm & Hall).
  split.
  { rewrite <-Hperm. symmetry. by eapply Forall2_length. }
  intros Hn. rewrite <-Hperm.
  assert (key_in s' <$> out = (groups_of s doc).*1) as ->.
  2:{ split; [done|]. apply strictly_sorted_NoDup, groups_keys_sorted. }
  apply list_eq_Forall2. apply Forall2_fmap. apply Forall2_flip.
  eapply Forall2_impl; [exact Hall|].
  intros [k g] m Hb. cbn in *. unfold key_in.
  eapply built_source_key; [|exact Hb]. by apply parents_named_group.
Qed.

Lemma rank_doc_partition_witness :
  NoDup (key_in store_A_min <$> matches (store_A_min !!! 0)).
Proof.
  destruct (rank_doc_partition (ranker "min") 0 store_A store_A_min
              ltac:(by apply (bool_decide_unpack _))
              ltac:(by apply (bool_decide_unpack _))
              ltac:(by vm_compute)) as (G & _ & _ & _ & _ & _ & Hk).
  apply Hk. by apply (bool_decide_unpack _).
Defined.

(** Both matches are promoted to the empty id: the document ends up with
    two matches under one source key, and C4 as stated fails. *)
Lemma promoted_matches_share_key :
  ∃ s', rank (ranker "min") [0] ∅ store_K = Ok tt s'
        ∧ ¬ NoDup (key_in s' <$> matches (s' !!! 0)).
Proof.
  eexists. split; [by vm_compute|].
  intros H. vm_compute in H. apply NoDup_cons in H as [H _].
  apply H. left.
Qed.

(** ** C10: ranking twice *)







Lemma group_sign_Some self sign :
  group_sign self = Some sign →
  (ranking self = "min" ∨ ranking self = "max")
  ∧ final_sign self = Some sign
  ∧ ¬ ranking self ∈ ["mean_min"; "mean_max"].
Proof.
  unfold group_sign, final_sign.
  destruct (String.eqb_spec (ranking self) "min") as [H|H].
  { intros [= <-]. rewrite H. split; [by left|]. split; [done|].
    rewrite elem_of_2. intros [?|?]; discriminate. }
  destruct (String.eqb_spec (ranking self) "max") as [H'|H']; [|done].
  intros [= <-]. rewrite H'. split; [by right|]. split; [done|].
  rewrite elem_of_2. intros [?|?]; discriminate.
Qed.





Global Instance ltb_true_antisymm :
  AntiSymm (=) (λ a b : string, String.ltb a b = true).
Proof. intros a b H1 H2. apply ltb_asym in H1. congruence. Qed.



(** The matches a document receives, named: the [i]-th group is built at
    the [i]-th new location. *)
Lemma rank_doc_groups_seq self doc s s' :
  closed s → doc < length s → rank_doc self doc s = Ok tt s' →
  let out := seq (length s) (length (groups_of s doc)) in
  length s' = length s + length (groups_of s doc)
  ∧ matches (s' !!! doc)
    = match final_sign self with
      | Some sign => stable_sort (by_score (metric self) sign s') out
      | None => out
      end
  ∧ Forall2 (λ kg m, built self s doc (group_of s doc kg.1) (s' !!! m))
      (groups_of s doc) out.
Proof.
  intros Hc Hdoc Hrun.
  pose proof (rank_doc_eq self doc s Hdoc (pool_valid s doc Hc)) as H.
  rewrite Hrun in H. destruct H as (objs & ms & -> & Hobjs & Hms).
  rewrite Forall2_fmap_l in Hobjs.
  pose proof (Forall2_length _ _ _ Hobjs) as Hlen. cbv zeta.
  rewrite Hlen, length_app, length_alter, rank_doc_out by done.
  split; [done|]. split; [done|].
  apply Forall2_same_length_lookup. split; [by rewrite length_seq|].
  intros i [k g] m Hg Hm. apply lookup_seq in Hm as [-> Hi].
  destruct (lookup_lt_is_Some_2 objs i Hi) as [obj Hobj].
  rewrite (rank_doc_new doc s objs ms i obj Hobj).
  pose proof (Forall2_lookup_lr _ _ _ _ _ _ Hobjs Hg Hobj) as Hb.
  cbn in Hb |- *.
  apply list_elem_of_lookup_2, groups_of_group in Hg as [<- _]. exact Hb.
Qed.














(** With the root and its chunk both selected, the first call ranks the
    root on the chunk's old matches and the second on its new ones. *)
Lemma rank_twice_differs_on_chunk_targets :
  ∃ s1 s2, rank roots_and_chunks [0] ∅ store_R = Ok tt s1
           ∧ rank roots_and_chunks [0] ∅ s1 = Ok tt s2
           ∧ out_docs s2 0 ≠ out_docs s1 0.
Proof.
  eexists _, _. split; [by vm_compute|]. split; [by vm_compute|].
  intros H. apply (f_equal (fmap (score_value "cosine"))) in H.
  vm_compute in H. discriminate.
Qed.

(** * Further properties of [rank] *)

(** ** Calls that return *)

Lemma traverse_path_nil s p : traverse_path s p [] = [].
Proof. induction p as [|[] p IH]; [done|exact IH..]. Qed.

(** X1. Without documents there is nothing to rank, whatever the selector. *)
Theorem rank_no_docs self parameters s : rank self [] parameters s = Ok tt s.
Proof.
  rewrite rank_eq. unfold targets_of, traverse.
  induction (default _ _) as [|p sel IH]; [done|].
  cbn. by rewrite traverse_path_nil.
Qed.

Lemma plan_scored self s g :
  g ≠ [] → Forall (has_score (metric self) s) g →
  ∃ x, plan self s g = inr x.
Proof.
  intros Hne Hall. unfold plan. rewrite chosen_eq.
  assert (∀ l, l ≡ₚ g →
    ∃ x, match l with
         | [] => inl IndexError
         | rep :: rest =>
             if bool_decide (ranking self ∈ ["mean_min"; "mean_max"]) then
               match mapM (λ el, score_value (metric self) (s !!! el))
                       (rep :: rest) with
               | Some scs => inr (rep, Some (mean_score self scs))
               | None => inl (KeyError (metric self))
               end
             else inr (rep, None)
         end = inr x) as Hl.
  { intros l Hp. destruct l as [|rep rest].
    { symmetry in Hp. by apply Permutation_nil_r in Hp. }
    destruct (bool_decide _); [|by eexists].
    assert (is_Some (mapM (λ el, score_value (metric self) (s !!! el))
                       (rep :: rest))) as [scs ->]; [|by eexists].
    apply mapM_is_Some. by rewrite Hp. }
  destruct (group_sign self) as [sign|].
  - rewrite decide_True by done. apply Hl, stable_sort_perm.
  - by apply Hl.
Qed.

(** [rank_doc] returns when every candidate carries the metric. *)
Lemma rank_doc_returns self doc s :
  closed s → doc < length s →
  Forall (has_score (metric self) s) (pool s doc) →
  ∃ s', rank_doc self doc s = Ok tt s'.
Proof.
  intros Hc Hdoc Hall.
  pose proof (rank_doc_eq self doc s Hdoc (pool_valid s doc Hc)) as H.
  destruct (rank_doc self doc s) as [[] s'|e s']; [by eexists|].
  destruct H as [_ Hex]. apply Exists_exists in Hex as ([k g] & Hin & Hp).
  apply groups_of_group in Hin as [-> Hne]. cbn in Hp.
  destruct (plan_scored self s (group_of s doc k) Hne) as [x Hx]; [|congruence].
  apply list.Forall_forall. intros m [_ Hm]%list_elem_of_filter.
  rewrite list.Forall_forall in Hall. by apply Hall.
Qed.

Lemma built_scored self s doc g obj :
  built self s doc g obj → Forall (has_score (metric self) s) g →
  is_Some (score_value (metric self) obj).
Proof.
  intros (rep & upd & ms & Hp & -> & _) Hall.
  unfold score_value. apply fmap_is_Some.
  destruct upd as [ns|]; cbn; [rewrite lookup_insert_eq; by eexists|].
  rewrite promote_scores. cbn.
  rewrite list.Forall_forall in Hall.
  pose proof (Hall rep (plan_rep_in _ _ _ _ _ Hp)) as Hv.
  unfold has_score, score_value in Hv. by apply fmap_is_Some in Hv.
Qed.

Lemma rank_doc_out_scored self doc s s' :
  closed s → doc < length s →
  Forall (has_score (metric self) s) (pool s doc) →
  rank_doc self doc s = Ok tt s' →
  Forall (has_score (metric self) s') (matches (s' !!! doc)).
Proof.
  intros Hc Hdoc Hall Hrun.
  destruct (rank_doc_groups self doc s s' Hc Hdoc Hrun) as (out & Hperm & Hb).
  rewrite <-Hperm. apply list.Forall_forall. intros m Hm.
  apply list_elem_of_lookup in Hm as [i Hi].
  destruct (Forall2_lookup_r _ _ _ _ _ Hb Hi) as ([k g] & _ & Hbuilt).
  eapply built_scored; [exact Hbuilt|]. cbn.
  apply list.Forall_forall. intros c [_ Hcin]%list_elem_of_filter.
  rewrite list.Forall_forall in Hall. by apply Hall.
Qed.

(** Every candidate of every document of [T] carries the metric. *)
Lemma scored_step self (T : list loc) s s' t1 :
  closed s →
  (∀ t, t ∈ T → t < length s ∧ Forall (has_score (metric self) s) (pool s t)) →
  t1 ∈ T → rank_doc self t1 s = Ok tt s' →
  ∀ t, t ∈ T → t < length s' ∧ Forall (has_score (metric self) s') (pool s' t).
Proof.
  intros Hc HT Ht1 Hrun t Ht.
  pose proof (rank_doc_Ok_frame _ _ _ _ Hrun) as Hf.
  destruct (HT t Ht) as [Hlt Hall]. destruct (HT t1 Ht1) as [Hlt1 Hall1].
  pose proof (rank_doc_out_scored self t1 s s' Hc Hlt1 Hall1 Hrun) as Hnew.
  rewrite list.Forall_forall in Hall, Hnew.
  assert (∀ x m, x < length s → x ≠ t1 → m ∈ matches (s !!! x) →
                 m ∈ pool s t → has_score (metric self) s' m) as Hold.
  { intros x m Hx Hne Hm Hin. unfold has_score.
    rewrite (frame_score [t1] s s'); [by apply Hall|done|].
    pose proof (closed_lookup s x Hc) as Hv. apply Forall_app in Hv as [_ Hv].
    rewrite list.Forall_forall in Hv. by apply Hv. }
  split; [destruct Hf; lia|].
  apply list.Forall_forall. intros m Hm.
  apply pool_elem in Hm as [Hm|(c & Hcin & Hcne & Hm)].
  - destruct (decide (t = t1)) as [->|Hne]; [by apply Hnew|].
    rewrite (frame_other s s' t t1) in Hm by done.
    apply (Hold t m); try done. apply pool_elem. by left.
  - destruct Hf as [Hlen Hfr]. destruct (Hfr t Hlt) as [Hsame _].
    apply same_but_matches_fields in Hsame as (_ & _ & _ & Hch & _).
    rewrite Hch in Hcin.
    assert (c < length s) as Hcl.
    { pose proof (closed_lookup s t Hc) as Hv. apply Forall_app in Hv as [Hv _].
      rewrite list.Forall_forall in Hv. by apply Hv. }
    destruct (decide (c = t1)) as [->|Hne]; [by apply Hnew|].
    rewrite (frame_other s s' c t1) in Hm by done.
    apply (Hold c m); try done. apply pool_elem. right. by exists c.
Qed.

Lemma rank_targets_return self (T : list loc) rest : ∀ s,
  (∀ t, t ∈ rest → t ∈ T) → closed s →
  (∀ t, t ∈ T → t < length s ∧ Forall (has_score (metric self) s) (pool s t)) →
  ∃ s', for_each rest (rank_doc self) s = Ok tt s'.
Proof.
  induction rest as [|t1 rest IH]; intros s Hsub Hc HT; [by eexists|].
  assert (t1 ∈ T) as Ht1 by (apply Hsub; left).
  destruct (HT t1 Ht1) as [Hlt1 Hall1].
  destruct (rank_doc_returns self t1 s Hc Hlt1 Hall1) as [s1 Hstep].
  destruct (IH s1) as [s' Hrun].
  - intros t Ht. apply Hsub. by right.
  - by eapply rank_doc_Ok_closed.
  - by eapply scored_step.
  - exists s'. cbn [for_each]. unfold bind. by rewrite Hstep.
Qed.

(** X2. [rank] returns when every candidate of every target document carries
    the metric. *)
Theorem rank_returns self docs parameters s :
  closed s → Forall (λ d, d < length s) docs →
  (∀ t b, t ∈ targets_of self docs parameters s → b ∈ pool s t →
          has_score (metric self) s b) →
  ∃ s', rank self docs parameters s = Ok tt s'.
Proof.
  intros Hc Hd Hall. rewrite rank_eq.
  apply (rank_targets_return self (targets_of self docs parameters s)); try done.
  intros t Ht. split.
  - assert (Forall (λ t, t < length s) (targets_of self docs parameters s))
      as Hv by (by apply traverse_valid).
    rewrite list.Forall_forall in Hv. by apply Hv.
  - apply list.Forall_forall. intros b Hb. by apply (Hall t).
Qed.

Lemma rank_returns_witness :
  ∃ s', rank (ranker "min") [0] ∅ store_A = Ok tt s'.
Proof.
  apply rank_returns.
  - by apply (bool_decide_unpack _).
  - by apply (bool_decide_unpack _).
  - intros t b Ht Hb.
    assert (Forall (λ t,
              Forall (λ b, is_Some (score_value "cosine" (store_A !!! b)))
                (pool store_A t))
              (targets_of (ranker "min") [0] ∅ store_A)) as H
      by (by apply (bool_decide_unpack _)).
    rewrite list.Forall_forall in H. specialize (H t Ht).
    rewrite list.Forall_forall in H. by apply H.
Defined.

Lemma rank_group_raises_policy self doc group s e s' :
  group ≠ [] → rank_group self doc group s = Raise e s' →
  ranking self ∈ ["min"; "max"; "mean_min"; "mean_max"].
Proof.
  intros Hne. rewrite rank_group_eq. unfold build.
  destruct (chosen self s group) as [[|rep rest]|] eqn:Hc.
  - apply chosen_perm in Hc. by apply Permutation_nil in Hc.
  - cbv zeta. case_bool_decide as Hm; [|done]. intros _.
    apply elem_of_2 in Hm. apply elem_of_4. tauto.
  - intros _. rewrite chosen_eq in Hc.
    destruct (group_sign self) as [sign|] eqn:Hs; [|done].
    apply group_sign_Some in Hs as [Hp _]. apply elem_of_4. tauto.
Qed.

Lemma rank_doc_raises_policy self doc s e s' :
  rank_doc self doc s = Raise e s' →
  ranking self ∈ ["min"; "max"; "mean_min"; "mean_max"].
Proof.
  unfold rank_doc. unfold bind at 1. rewrite collect_matches_eq.
  unfold bind at 1. rewrite group_matches_eq. unfold bind.
  destruct (for_each _ _ _) as [[] s_b|e' s_b] eqn:Hloop.
  - rewrite sort_matches_eq. destruct (final_sign self) eqn:Hs; [|done].
    intros _. by eapply final_sign_policy.
  - intros _.
    apply for_each_Raise in Hloop as ([k g] & s_j & Hin & Hg).
    eapply rank_group_raises_policy; [|exact Hg].
    pose proof (groupby_groups (key_in s)
                  (stable_sort (by_key (key_in s)) (pool s doc))) as Hall.
    rewrite list.Forall_forall in Hall. by destruct (Hall _ Hin).
Qed.

(** X3. If [rank] raises, the exception is the [KeyError] of a score lookup,
    the policy is one of the four, and some candidate of some target lacks
    the metric. *)
Theorem rank_raises_for_missing_score self docs parameters s e s' :
  closed s → Forall (λ d, d < length s) docs →
  rank self docs parameters s = Raise e s' →
  e = KeyError (metric self)
  ∧ ranking self ∈ ["min"; "max"; "mean_min"; "mean_max"]
  ∧ ∃ t b, t ∈ targets_of self docs parameters s ∧ b ∈ pool s t
           ∧ score_value (metric self) (s !!! b) = None.
Proof.
  intros Hc Hd Hrun. split; [by eapply rank_raises|]. split.
  { rewrite rank_eq in Hrun.
    apply for_each_Raise in Hrun as (t & s_j & _ & Ht).
    by eapply rank_doc_raises_policy. }
  set (T := targets_of self docs parameters s).
  destruct (decide (Forall (λ t,
              Forall (λ b, is_Some (score_value (metric self) (s !!! b)))
                (pool s t)) T)) as [Hall|Hex].
  - exfalso. rewrite rank_eq in Hrun.
    destruct (rank_targets_return self T T s) as [s1 H1]; try done.
    + intros t Ht. split.
      * assert (Forall (λ t, t < length s) T) as Hv
          by (by apply traverse_valid).
        rewrite list.Forall_forall in Hv. by apply Hv.
      * rewrite list.Forall_forall in Hall. by apply Hall.
    + fold T in Hrun. congruence.
  - apply not_Forall_Exists in Hex; [|apply _].
    apply Exists_exists in Hex as (t & Ht & Hex). cbn in Hex.
    apply not_Forall_Exists in Hex; [|apply _].
    apply Exists_exists in Hex as (b & Hb & Hnone). cbn in Hnone.
    exists t, b. split; [done|]. split; [done|].
    destruct (score_value _ _); [|done]. exfalso. apply Hnone. by eexists.
Qed.

Lemma rank_raises_for_missing_score_witness :
  ∃ t b, t ∈ targets_of (ranker "max") [0] ∅ store_M
         ∧ b ∈ pool store_M t
         ∧ score_value "cosine" (store_M !!! b) = None.
Proof.
  destruct (rank_raises_for_missing_score (ranker "max") [0] ∅ store_M
              (KeyError "cosine")
              (final_store (rank (ranker "max") [0] ∅ store_M)))
    as (_ & _ & H).
  - by apply (bool_decide_unpack _).
  - by apply (bool_decide_unpack _).
  - by vm_compute.
  - exact H.
Defined.

(** ** Documents without candidates *)

Lemma alter_clear_id (s : store) doc :
  matches (s !!! doc) = [] → alter (with_matches []) doc s = s.
Proof.
  intros Hm. apply list_eq. intros i. rewrite list_lookup_alter.
  case_decide as Hi; [|done]. subst i.
  destruct (s !! doc) as [d|] eqn:Hd; [|done]. cbn.
  rewrite (list_lookup_total_correct _ _ _ Hd) in Hm.
  by rewrite <-Hm, with_matches_same.
Qed.

Lemma groups_of_nil s doc : groups_of s doc = [] ↔ pool s doc = [].
Proof.
  unfold groups_of. split.
  - intros H. apply (f_equal (λ G, concat G.*2)) in H.
    rewrite groupby_concat in H. cbn in H.
    apply Permutation_nil. by rewrite <-H, stable_sort_perm.
  - by intros ->.
Qed.

(** X4. A document without candidates is left as it is, under every policy
    and without any score being read; and only such a document ends up
    without matches. *)
Theorem rank_doc_no_candidates self doc s :
  (pool s doc = [] → rank_doc self doc s = Ok tt s)
  ∧ (∀ s', closed s → doc < length s → rank_doc self doc s = Ok tt s' →
           (matches (s' !!! doc) = [] ↔ pool s doc = [])).
Proof.
  split.
  - intros Hp. unfold rank_doc. unfold bind at 1. rewrite collect_matches_eq.
    unfold bind at 1. rewrite group_matches_eq, Hp. cbn [stable_sort foldr groupby].
    unfold bind. cbn [for_each]. unfold ret. rewrite sort_matches_eq.
    assert (matches (s !!! doc) = []) as Hm.
    { unfold pool in Hp. by apply app_eq_nil in Hp as [? _]. }
    rewrite (alter_clear_id s doc Hm), Hm.
    destruct (final_sign self); [|done].
    rewrite decide_True by constructor. cbn. by rewrite alter_clear_id.
  - intros s' Hc Hdoc Hrun.
    destruct (rank_doc_groups_seq self doc s s' Hc Hdoc Hrun) as (_ & Hms & _).
    rewrite <-groups_of_nil.
    assert (length (matches (s' !!! doc)) = length (groups_of s doc)) as Hlen.
    { rewrite Hms. destruct (final_sign self);
        by rewrite ?stable_sort_length, length_seq. }
    split; intros H; apply length_zero_iff_nil;
      apply length_zero_iff_nil in H; lia.
Qed.

Lemma rank_doc_no_candidates_witness :
  rank_doc (ranker "mean_max") 1 store_P = Ok tt store_P
  ∧ (matches (store_A_min !!! 0) = [] ↔ pool store_A 0 = []).
Proof.
  split.
  - apply (proj1 (rank_doc_no_candidates (ranker "mean_max") 1 store_P)).
    reflexivity.
  - apply (proj2 (rank_doc_no_candidates (ranker "min") 0 store_A)).
    + by apply (bool_decide_unpack _).
    + by apply (bool_decide_unpack _).
    + by vm_compute.
Defined.

(** ** The matches a target receives are new objects *)

Lemma rank_doc_out_fresh self doc s s' :
  closed s → doc < length s → rank_doc self doc s = Ok tt s' →
  Forall (λ m, length s ≤ m < length s') (matches (s' !!! doc))
  ∧ NoDup (matches (s' !!! doc)).
Proof.
  intros Hc Hdoc Hrun.
  destruct (rank_doc_groups_seq self doc s s' Hc Hdoc Hrun) as (Hlen & Hms & _).
  assert (matches (s' !!! doc)
          ≡ₚ seq (length s) (length (groups_of s doc))) as Hperm.
  { rewrite Hms. destruct (final_sign self); [apply stable_sort_perm|done]. }
  rewrite Hperm. split; [|apply NoDup_seq].
  apply Forall_seq. intros j Hj. lia.
Qed.

(** X5. After [rank] has returned, the matches of every target document are
    objects that the call allocated, each listed once: no object of the
    input is a match of a target any more. *)
Theorem rank_matches_fresh self docs parameters s s' t :
  closed s → Forall (λ d, d < length s) docs →
  rank self docs parameters s = Ok tt s' →
  t ∈ targets_of self docs parameters s →
  Forall (λ m, length s ≤ m < length s') (matches (s' !!! t))
  ∧ NoDup (matches (s' !!! t)).
Proof.
  intros Hc Hd Hrun Ht. rewrite rank_eq in Hrun.
  assert (Forall (λ t, t < length s) (targets_of self docs parameters s))
    as Hv by (by apply traverse_valid).
  assert ((closed s' ∧ length s ≤ length s')
          ∧ ∀ t, t ∈ targets_of self docs parameters s →
              Forall (λ m, length s ≤ m < length s') (matches (s' !!! t))
              ∧ NoDup (matches (s' !!! t))) as [_ H]; [|by apply H].
  eapply (rank_targets_post self (λ _, True)
            (λ s_i, closed s_i ∧ length s ≤ length s_i)
            (λ s_i t, Forall (λ m, length s ≤ m < length s_i)
                        (matches (s_i !!! t))
                      ∧ NoDup (matches (s_i !!! t))));
    [| | | | |exact Hrun].
  - intros x s_a s_b [Hca Hla] _ Hx Hstep.
    split; [by eapply rank_doc_Ok_closed|].
    pose proof (rank_doc_Ok_frame _ _ _ _ Hstep) as [Hlen _]. lia.
  - intros x s_a s_b [Hca Hla] _ Hx Hstep.
    destruct (rank_doc_out_fresh self x s_a s_b Hca Hx Hstep) as [Hf Hn].
    split; [|done]. eapply Forall_impl; [exact Hf|]. intros m Hm.
    cbn beta in Hm. lia.
  - intros x x' s_a s_b [Hca Hla] _ _ Hne Hx Hx' [Hf Hn] Hstep.
    pose proof (rank_doc_Ok_frame _ _ _ _ Hstep) as Hfr.
    rewrite (frame_other s_a s_b x x') by done. split; [|done].
    eapply Forall_impl; [exact Hf|]. intros m Hm. cbn beta in Hm.
    destruct Hfr as [Hlen _]. lia.
  - done.
  - eapply Forall_impl; [exact Hv|]. by intros.
Qed.

Lemma rank_matches_fresh_witness :
  Forall (λ m, length store_A ≤ m < length store_A_min)
    (matches (store_A_min !!! 0))
  ∧ NoDup (matches (store_A_min !!! 0)).
Proof.
  apply (rank_matches_fresh (ranker "min") [0] ∅ store_A store_A_min 0).
  - by apply (bool_decide_unpack _).
  - by apply (bool_decide_unpack _).
  - by vm_compute.
  - by apply (bool_decide_unpack _).
Defined.

(** ** Calls that raise *)






(** ** Which candidate is promoted, and what is copied *)

Lemma built_promoted_from self s doc g obj :
  built self s doc g obj →
  ∃ rep rest, chosen self s g = Some (rep :: rest)
              ∧ promoted_from (metric self) (s !!! rep) obj
              ∧ (rep ≠ doc → matches obj = matches (s !!! rep)).
Proof.
  intros (rep & upd & ms & Hp & -> & Hms).
  pose proof Hp as [rest Hc]%plan_rep. exists rep, rest. split; [done|].
  split.
  - destruct (realise_fields (metric self) upd
                (promote (with_matches ms (s !!! rep)))) as (Hi & _ & _ & Ht).
    assert (∀ k, k ≠ metric self →
              scores (realise (metric self) upd
                        (promote (with_matches ms (s !!! rep)))) !! k
              = scores (s !!! rep) !! k) as Hsc.
    { intros k Hk. destruct upd as [ns|]; cbn [realise scores with_scores].
      - rewrite lookup_insert_ne by done. by rewrite promote_scores.
      - by rewrite promote_scores. }
    unfold promoted_from. split; [|split; [|split; [|exact Hsc]]].
    + rewrite Ht. unfold promote. cbn.
      by destruct (granularity (s !!! rep)).
    + destruct upd; cbn [realise]; unfold promote; cbn;
        by destruct (granularity (s !!! rep)).
    + rewrite Hi. unfold promote. cbn.
      by destruct (granularity (s !!! rep)).
  - intros Hne. rewrite (Hms Hne).
    destruct upd; cbn [realise]; unfold promote; cbn;
      by destruct (granularity (s !!! rep)).
Qed.

(** X7. Every match a document receives is the promoted copy of one of its
    candidates: tags, chunks and the scores under other names are those of
    the candidate, and the id is the candidate's, or its parent's when the
    candidate is above granularity 0. *)
Theorem rank_doc_provenance self doc s s' m :
  closed s → doc < length s → rank_doc self doc s = Ok tt s' →
  m ∈ matches (s' !!! doc) →
  ∃ rep, rep ∈ pool s doc
         ∧ promoted_from (metric self) (s !!! rep) (s' !!! m)
         ∧ (rep ≠ doc → matches (s' !!! m) = matches (s !!! rep)).
Proof.
  intros Hc Hdoc Hrun Hm.
  destruct (rank_doc_groups self doc s s' Hc Hdoc Hrun) as (out & Hperm & Hall).
  rewrite <-Hperm in Hm. apply list_elem_of_lookup in Hm as [i Hi].
  destruct (Forall2_lookup_r _ _ _ _ _ Hall Hi) as ([k g] & _ & Hb).
  cbn in Hb.
  destruct (built_promoted_from _ _ _ _ _ Hb) as (rep & rest & Hch & Hpf & Hms).
  exists rep. split; [|done].
  assert (rep ∈ group_of s doc k) as [_ Hin]%list_elem_of_filter; [|done].
  rewrite <-(chosen_perm _ _ _ _ Hch). left.
Qed.

Lemma rank_doc_provenance_witness :
  ∃ rep, rep ∈ pool store_A 0
         ∧ promoted_from "cosine" (store_A !!! rep) (store_A_min !!! 9)
         ∧ (rep ≠ 0 → matches (store_A_min !!! 9) = matches (store_A !!! rep)).
Proof.
  apply (rank_doc_provenance (ranker "min") 0 store_A store_A_min 9).
  - by apply (bool_decide_unpack _).
  - by apply (bool_decide_unpack _).
  - by vm_compute.
  - by apply (bool_decide_unpack _).
Defined.

(** X8. Under the mean policies the groups are not sorted: the promoted
    candidate is the first one of its source key in the pool, the document's
    own matches coming before those of its chunks. *)
Theorem rank_doc_mean_representative self doc s s' m :
  closed s → doc < length s →
  ranking self ∈ ["mean_min"; "mean_max"] →
  rank_doc self doc s = Ok tt s' →
  m ∈ matches (s' !!! doc) →
  ∃ rep, head (group_of s doc (key_in s rep)) = Some rep
         ∧ promoted_from (metric self) (s !!! rep) (s' !!! m).
Proof.
  intros Hc Hdoc Hpol Hrun Hm.
  destruct (rank_doc_groups self doc s s' Hc Hdoc Hrun) as (out & Hperm & Hall).
  rewrite <-Hperm in Hm. apply list_elem_of_lookup in Hm as [i Hi].
  destruct (Forall2_lookup_r _ _ _ _ _ Hall Hi) as ([k g] & _ & Hb).
  cbn in Hb.
  destruct (built_promoted_from _ _ _ _ _ Hb) as (rep & rest & Hch & Hpf & _).
  exists rep. split; [|done].
  rewrite chosen_eq in Hch.
  destruct (group_sign self) as [sign|] eqn:Hs.
  { apply group_sign_Some in Hs as (_ & _ & Hnm). done. }
  injection Hch as Hch.
  assert (key_in s rep = k) as ->; [|by rewrite Hch].
  assert (rep ∈ group_of s doc k) as [? _]%list_elem_of_filter; [|done].
  rewrite Hch. left.
Qed.

Lemma rank_doc_mean_representative_witness :
  ∃ rep, head (group_of store_A 0 (key_in store_A rep)) = Some rep
         ∧ promoted_from "cosine" (store_A !!! rep) (store_A_mean !!! 9).
Proof.
  apply (rank_doc_mean_representative (ranker "mean_min") 0 store_A
           store_A_mean 9).
  - by apply (bool_decide_unpack _).
  - by apply (bool_decide_unpack _).
  - by apply (bool_decide_unpack _).
  - by vm_compute.
  - by apply (bool_decide_unpack _).
Defined.

Section stable_sort_head.
Context {A : Type} (lt : A → A → bool).
Hypothesis lt_asym : ∀ x y, lt x y = true → lt y x = false.
Hypothesis lt_negtrans : ∀ x y z, lt x y = false → lt y z = false → lt x z = false.

End stable_sort_head.



(** ** The order of the matches with equal scores *)

Section stable_sort_ties.
Context {A : Type} (lt : A → A → bool) (R : A → A → Prop).


End stable_sort_ties.






(** ** Batches *)

Lemma for_each_app {A} (body : A → M unit) (l1 l2 : list A) s :
  for_each (l1 ++ l2) body s = (for_each l1 body >> for_each l2 body) s.
Proof.
  revert s. induction l1 as [|x l1 IH]; intros s; [done|].
  cbn [app for_each]. unfold bind in *.
  destruct (body x s) as [[] s1|e s1]; [|done]. apply IH.
Qed.

(** X11. With the selector ['@r'] the documents of a batch are ranked one
    after the other: ranking a batch is ranking its first part and then, if
    that returned, the rest; a failure in the first part leaves the rest as
    it was. *)
Theorem rank_batch self docs1 docs2 parameters s :
  default (traversal_paths self) (parameters !! "traversal_paths") = [[]] →
  rank self (docs1 ++ docs2) parameters s
  = (rank self docs1 parameters >> rank self docs2 parameters) s.
Proof.
  intros Hsel.
  assert (∀ docs st, rank self docs parameters st
                     = for_each docs (rank_doc self) st) as Hr.
  { intros docs st. rewrite rank_eq. unfold targets_of, traverse.
    rewrite Hsel. cbn. by rewrite app_nil_r. }
  rewrite Hr, for_each_app. unfold bind. rewrite Hr.
  destruct (for_each docs1 (rank_doc self) s) as [[] s1|e s1]; [|done].
  by rewrite Hr.
Qed.

Lemma rank_batch_witness :
  rank (ranker "min") ([0] ++ [1]) ∅ store_A
  = (rank (ranker "min") [0] ∅ >> rank (ranker "min") [1] ∅) store_A.
Proof. by apply (rank_batch (ranker "min") [0] [1] ∅ store_A). Defined.

(** ** The mean stays within the scores of the group *)






(** ** What the unit tests look at *)

Section candidates_property.
Context (Q : Document → Prop).
Hypothesis Q_frame : ∀ d d', same_but_matches d d' → Q d → Q d'.
Hypothesis Q_built : ∀ self s doc g obj,
  built self s doc g obj → Forall (λ m, Q (s !!! m)) g → Q obj.

Lemma rank_doc_out_property self doc s s' :
  closed s → doc < length s →
  Forall (λ m, Q (s !!! m)) (pool s doc) →
  rank_doc self doc s = Ok tt s' →
  Forall (λ m, Q (s' !!! m)) (matches (s' !!! doc)).
Proof.
  intros Hc Hdoc Hall Hrun.
  destruct (rank_doc_groups self doc s s' Hc Hdoc Hrun) as (out & Hperm & Hb).
  rewrite <-Hperm. apply list.Forall_forall. intros m Hm.
  apply list_elem_of_lookup in Hm as [i Hi].
  destruct (Forall2_lookup_r _ _ _ _ _ Hb Hi) as ([k g] & _ & Hbuilt).
  eapply Q_built; [exact Hbuilt|]. cbn.
  apply list.Forall_forall. intros c [_ Hcin]%list_elem_of_filter.
  rewrite list.Forall_forall in Hall. by apply Hall.
Qed.

(** A property of all the candidates of the documents of [T] that copies
    inherit is kept while one of them is ranked; and so is there being
    candidates at all. *)
Lemma candidates_step self (T : list loc) s s' t1 :
  closed s →
  (∀ t, t ∈ T → t < length s ∧ pool s t ≠ []
                ∧ Forall (λ m, Q (s !!! m)) (pool s t)) →
  t1 ∈ T → rank_doc self t1 s = Ok tt s' →
  ∀ t, t ∈ T → t < length s' ∧ pool s' t ≠ []
               ∧ Forall (λ m, Q (s' !!! m)) (pool s' t).
Proof.
  intros Hc HT Ht1 Hrun t Ht.
  pose proof (rank_doc_Ok_frame _ _ _ _ Hrun) as Hf.
  destruct (HT t Ht) as (Hlt & Hne & Hall).
  destruct (HT t1 Ht1) as (Hlt1 & Hne1 & Hall1).
  pose proof (rank_doc_out_property self t1 s s' Hc Hlt1 Hall1 Hrun) as Hnew.
  assert (matches (s' !!! t1) ≠ []) as Hnew_ne.
  { destruct (rank_doc_groups_seq self t1 s s' Hc Hlt1 Hrun) as (_ & Hms & _).
    intros Hnil. apply Hne1, groups_of_nil.
    apply (f_equal length) in Hnil. rewrite Hms in Hnil.
    apply length_zero_iff_nil.
    destruct (final_sign self);
      rewrite ?stable_sort_length, length_seq in Hnil; exact Hnil. }
  rewrite list.Forall_forall in Hall, Hnew.
  assert (∀ x m, x < length s → m ∈ matches (s !!! x) →
                 m ∈ pool s t → Q (s' !!! m)) as Hold.
  { intros x m Hx Hm Hin.
    pose proof (closed_lookup s x Hc) as Hv. apply Forall_app in Hv as [_ Hv].
    rewrite list.Forall_forall in Hv. destruct Hf as [_ Hfr].
    destruct (Hfr m (Hv m Hm)) as [Hsame _].
    eapply Q_frame; [exact Hsame|]. by apply Hall. }
  assert (chunks (s' !!! t) = chunks (s !!! t)) as Hch.
  { destruct Hf as [_ Hfr]. destruct (Hfr t Hlt) as [Hsame _].
    by apply same_but_matches_fields in Hsame as (_ & _ & _ & ? & _). }
  assert (∀ c, c ∈ chunks (s !!! t) → c < length s) as Hcl.
  { intros c Hcin.
    pose proof (closed_lookup s t Hc) as Hv. apply Forall_app in Hv as [Hv _].
    rewrite list.Forall_forall in Hv. by apply Hv. }
  split; [destruct Hf; lia|]. split.
  - (* a candidate of before, or a new match where it stood *)
    destruct (pool s t) as [|b l] eqn:Hp; [done|].
    assert (b ∈ pool s t) as Hb by (rewrite Hp; left).
    assert (∃ m, m ∈ pool s' t) as [m Hm]; [|by intros Hnil; rewrite Hnil in Hm;
      apply elem_of_nil in Hm].
    destruct (matches (s' !!! t1)) as [|n ns] eqn:Hn1; [done|].
    assert (n ∈ matches (s' !!! t1)) as Hn by (rewrite Hn1; left).
    apply pool_elem in Hb as [Hb|(c & Hcin & Hcne & Hb)].
    + destruct (decide (t = t1)) as [->|Hne'].
      * exists n. apply pool_elem. by left.
      * exists b. apply pool_elem. left.
        by rewrite (frame_other s s' t t1).
    + destruct (decide (c = t1)) as [->|Hne'].
      * exists n. apply pool_elem. right. exists t1. by rewrite Hch.
      * exists b. apply pool_elem. right. exists c. rewrite Hch.
        split; [done|]. split; [done|].
        rewrite (frame_other s s' c t1); [done..|]. by apply Hcl.
  - apply list.Forall_forall. intros m Hm.
    apply pool_elem in Hm as [Hm|(c & Hcin & Hcne & Hm)].
    + destruct (decide (t = t1)) as [->|Hne']; [by apply Hnew|].
      rewrite (frame_other s s' t t1) in Hm by done.
      apply (Hold t m); try done. apply pool_elem. by left.
    + rewrite Hch in Hcin.
      destruct (decide (c = t1)) as [->|Hne']; [by apply Hnew|].
      rewrite (frame_other s s' c t1) in Hm by (by try apply Hcl).
      apply (Hold c m); try done; [by apply Hcl|].
      apply pool_elem. right. by exists c.
Qed.

(** After [rank] has returned, every target that had candidates has
    matches, and they have the property. *)
Lemma rank_targets_property self (T : list loc) s s' :
  closed s →
  (∀ t, t ∈ T → t < length s ∧ pool s t ≠ []
                ∧ Forall (λ m, Q (s !!! m)) (pool s t)) →
  for_each T (rank_doc self) s = Ok tt s' →
  ∀ t, t ∈ T → matches (s' !!! t) ≠ []
               ∧ Forall (λ m, Q (s' !!! m)) (matches (s' !!! t)).
Proof.
  intros Hc HT Hrun.
  assert ((closed s'
           ∧ ∀ t, t ∈ T → t < length s' ∧ pool s' t ≠ []
                          ∧ Forall (λ m, Q (s' !!! m)) (pool s' t))
          ∧ ∀ t, t ∈ T →
              matches (s' !!! t) ≠ []
              ∧ Forall (λ m, Q (s' !!! m)) (matches (s' !!! t)))
    as [_ H]; [|done].
  eapply (rank_targets_post self (λ t, t ∈ T)
            (λ s_i, closed s_i
                    ∧ ∀ t, t ∈ T → t < length s_i ∧ pool s_i t ≠ []
                                   ∧ Forall (λ m, Q (s_i !!! m)) (pool s_i t))
            (λ s_i t, matches (s_i !!! t) ≠ []
                      ∧ Forall (λ m, Q (s_i !!! m)) (matches (s_i !!! t))));
    [| | | | |exact Hrun].
  - intros t s_a s_b [Hca HTa] Ht _ Hstep.
    split; [by eapply rank_doc_Ok_closed|]. by eapply candidates_step.
  - intros t s_a s_b [Hca HTa] Ht Hlt Hstep.
    destruct (HTa t Ht) as (_ & Hne & Hall). split.
    + destruct (rank_doc_groups_seq self t s_a s_b Hca Hlt Hstep)
        as (_ & Hms & _).
      intros Hnil. apply Hne, groups_of_nil.
      apply (f_equal length) in Hnil. rewrite Hms in Hnil.
      apply length_zero_iff_nil.
      destruct (final_sign self);
        rewrite ?stable_sort_length, length_seq in Hnil; exact Hnil.
    + by eapply rank_doc_out_property.
  - intros t t' s_a s_b [Hca HTa] Ht Ht' Hne Hlt Hlt' [Hnn Hall] Hstep.
    pose proof (rank_doc_Ok_frame _ _ _ _ Hstep) as Hf.
    rewrite (frame_other s_a s_b t t') by done. split; [done|].
    rewrite list.Forall_forall in Hall |- *. intros m Hm.
    pose proof (closed_lookup s_a t Hca) as Hv.
    apply Forall_app in Hv as [_ Hv]. rewrite list.Forall_forall in Hv.
    destruct Hf as [_ Hfr]. destruct (Hfr m (Hv m Hm)) as [Hsame _].
    eapply Q_frame; [exact Hsame|]. by apply Hall.
  - done.
  - apply list.Forall_forall. intros t Ht. split; [done|].
    by destruct (HT t Ht).
Qed.
End candidates_property.

Lemma built_tagged self s doc g obj :
  built self s doc g obj → Forall (λ m, tags (s !!! m) ≠ []) g →
  tags obj ≠ [].
Proof.
  intros Hb Hall.
  destruct (built_promoted_from _ _ _ _ _ Hb) as (rep & rest & Hch & Hpf & _).
  destruct Hpf as (-> & _). rewrite list.Forall_forall in Hall. apply Hall.
  rewrite <-(chosen_perm _ _ _ _ Hch). left.
Qed.

(** X13. What [test_ranking] and [test_mean_ranking] assert after the call,
    [doc.matches] and [match.tags] for every selected document, holds
    whenever every selected document has candidates and every candidate has
    the metric and tags: [rank] returns, every target has matches, and every
    match has tags. *)
Theorem rank_keeps_tags self docs parameters s :
  closed s → Forall (λ d, d < length s) docs →
  (∀ t, t ∈ targets_of self docs parameters s → pool s t ≠ []) →
  (∀ t b, t ∈ targets_of self docs parameters s → b ∈ pool s t →
          has_score (metric self) s b ∧ tags (s !!! b) ≠ []) →
  ∃ s', rank self docs parameters s = Ok tt s'
        ∧ ∀ t, t ∈ targets_of self docs parameters s →
               matches (s' !!! t) ≠ []
               ∧ Forall (λ m, tags (s' !!! m) ≠ []) (matches (s' !!! t)).
Proof.
  intros Hc Hd Hne Hall. rewrite rank_eq.
  set (T := targets_of self docs parameters s) in *.
  assert (Forall (λ t, t < length s) T) as Hv by (by apply traverse_valid).
  rewrite list.Forall_forall in Hv.
  destruct (rank_targets_return self T T s) as [s' Hrun]; try done.
  { intros t Ht. split; [by apply Hv|].
    apply list.Forall_forall. intros b Hb. by apply (Hall t). }
  exists s'. split; [done|].
  apply (rank_targets_property (λ d, tags d ≠ []) ) with (self := self) (s := s);
    try done.
  - intros d d' Hsame. by apply same_but_matches_fields in Hsame
      as (_ & _ & _ & _ & _ & ->).
  - intros. by eapply built_tagged.
  - intros t Ht. split; [by apply Hv|]. split; [by apply Hne|].
    apply list.Forall_forall. intros b Hb. by apply (Hall t).
Qed.

Lemma rank_keeps_tags_witness :
  ∃ s', rank (ranker "max") [0] ∅ store_A = Ok tt s'
        ∧ ∀ t, t ∈ targets_of (ranker "max") [0] ∅ store_A →
               matches (s' !!! t) ≠ []
               ∧ Forall (λ m, tags (s' !!! m) ≠ []) (matches (s' !!! t)).
Proof.
  assert (Forall (λ t,
            pool store_A t ≠ []
            ∧ Forall (λ b, is_Some (score_value "cosine" (store_A !!! b))
                           ∧ tags (store_A !!! b) ≠ [])
                (pool store_A t))
            (targets_of (ranker "max") [0] ∅ store_A)) as H
    by (by apply (bool_decide_unpack _)).
  rewrite list.Forall_forall in H.
  apply rank_keeps_tags.
  - by apply (bool_decide_unpack _).
  - by apply (bool_decide_unpack _).
  - intros t Ht. by destruct (H t Ht).
  - intros t b Ht Hb. destruct (H t Ht) as [_ Hall].
    rewrite list.Forall_forall in Hall. by apply Hall.
Defined.

(** ** Candidates that need no aggregation *)




(** ** A target in a batch *)









